(** * Hanzi Trainer: a model of the practice queue, the segmenter,
      the ghost sizer and the four-slot drawing surface

    Source: [hanzi_trainer_react_single_file_prototype.jsx].  Every
    definition below is the translation of the function of the same name;
    React's hooks are written as explicit state passing. *)

From Stdlib Require Import QArith Qround Qminmax Qpower Lqa.
From stdpp Require Import base option list numbers.
From Equations.Prop Require Import Equations Logic.

Local Open Scope nat_scope.

(** ** Strings

    A JavaScript string is a sequence of UTF-16 code units. *)

Definition jsstring := list N.

Definition empty_string : jsstring := [].

(** ** Types (source lines 15-29) *)

(** [Card]: TypeScript declares [baseId], [hanzi], [pinyin], [english] as
    required and the two flags as optional.  At run time a card is an object
    built by spreading another one, and [{...undefined}] has no property at
    all, so every property but [id] may also be absent. *)
Record Card := mkCard {
  id : jsstring;
  baseId : option jsstring;
  hanzi : option jsstring;
  pinyin : option jsstring;
  english : option jsstring;
  scheduledShort : option bool;
  scheduledEnd : option bool
}.

Record Vocab := mkVocab {
  v_hanzi : jsstring;
  v_pinyin : jsstring;
  v_english : jsstring
}.

(** ** splitHanziToChars (source lines 127-147) *)

Module Segment.

(** The class [\s] of an ECMAScript regular expression (WhiteSpace and
    LineTerminator); U+3000, which the source lists again, is part of it. *)
Definition is_space (c : N) : bool :=
  ((c =? 0x09) || (c =? 0x0A) || (c =? 0x0B) || (c =? 0x0C) || (c =? 0x0D)
   || (c =? 0x20) || (c =? 0xA0) || (c =? 0x1680)
   || ((0x2000 <=? c) && (c <=? 0x200A))
   || (c =? 0x2028) || (c =? 0x2029) || (c =? 0x202F) || (c =? 0x205F)
   || (c =? 0x3000) || (c =? 0xFEFF))%N.

(** [text.replace(/[\s　]/g, "")] *)
Definition clean (text : jsstring) : jsstring :=
  filter (λ c, is_space c || (c =? 0x3000)%N = false) text.

Definition is_high_surrogate (c : N) : bool := ((0xD800 <=? c) && (c <=? 0xDBFF))%N.
Definition is_low_surrogate (c : N) : bool := ((0xDC00 <=? c) && (c <=? 0xDFFF))%N.

(** [Array.from(s)]: the string iterator yields code points, a surrogate
    pair as one unit and a lone surrogate on its own. *)
Fixpoint array_from (s : jsstring) : list jsstring :=
  match s with
  | [] => []
  | a :: t =>
      match t with
      | b :: t' =>
          if is_high_surrogate a && is_low_surrogate b
          then [a; b] :: array_from t'
          else [a] :: array_from t
      | [] => [[a]]
      end
  end.

(** The host's [Intl.Segmenter]: absent ([None]), or a grapheme segmenter
    for locale [zh] that returns the segments or throws ([None]). *)
Definition IntlSegmenter := option (jsstring -> option (list jsstring)).

(** Lines 130-143: the units of the cleaned text. *)
Definition units_of (intl : IntlSegmenter) (cleaned : jsstring) : list jsstring :=
  match intl with
  | Some seg =>
      match seg cleaned with
      | Some segments => segments
      | None => array_from cleaned          (* catch *)
      end
  | None => array_from cleaned
  end.

(** Lines 145: [while (first.length < max) first.push("")], by the number
    of iterations left. *)
Fixpoint pad (first : list jsstring) (missing : nat) : list jsstring :=
  match missing with
  | 0 => first
  | S k => pad (first ++ [empty_string]) k
  end.

(** The function for a [max] that is a number of units, 0 to 2^32 - 1; for
    any number as [max], see [Js.splitHanziToChars]. *)
Definition splitHanziToChars (intl : IntlSegmenter) (text : jsstring) (max : nat)
  : list jsstring :=
  match text with
  | [] => replicate max empty_string            (* new Array(max).fill("") *)
  | _ =>
      let cleaned := clean text in
      let units := units_of intl cleaned in
      let first := take max units in             (* units.slice(0, max) *)
      pad first (max - length first)
  end.

End Segment.

(** ** splitHanziToChars for any number as max *)

Module Js.

(** A number: a finite one, as the rational it is, or one of the three
    others. *)
Inductive number :=
| Finite (q : Q)
| NaN
| PosInfinity
| NegInfinity.

Definition of_nat (n : nat) : number := Finite (inject_Z (Z.of_nat n)).

(** The largest length of an array, 2^32 - 1. *)
Definition max_length : Z := 4294967295.

(** [new Array(len).fill("")] (line 128): [None] is the RangeError thrown
    unless [len] is an integer from 0 to 2^32 - 1. *)
Definition new_Array_fill (len : number) : option (list jsstring) :=
  match len with
  | Finite q =>
      let n := Qfloor q in
      if Qeq_bool (inject_Z n) q && (0 <=? n)%Z && (n <=? max_length)%Z
      then Some (replicate (Z.to_nat n) empty_string)
      else None
  | NaN | PosInfinity | NegInfinity => None
  end.

(** A finite number without its fraction. *)
Definition truncate (q : Q) : Z := Z.quot (Qnum q) (Zpos (Qden q)).

(** [units.slice(0, max)] (line 144): the end is [max] without its
    fraction; below 0 it counts from the end of the array. *)
Definition slice_to (units : list jsstring) (max : number) : list jsstring :=
  match max with
  | Finite q =>
      let relEnd := truncate q in
      if (relEnd <? 0)%Z
      then take (Z.to_nat (Z.of_nat (length units) + relEnd)) units
      else take (Z.to_nat relEnd) units
  | NaN | NegInfinity => []
  | PosInfinity => units
  end.

(** [while (first.length < max) first.push("")] (line 145): the array grows
    to the least length that is not below [max]; [None] is the RangeError
    thrown when that is beyond 2^32 - 1. *)
Definition pad_to (first : list jsstring) (max : number) : option (list jsstring) :=
  match max with
  | Finite q =>
      let target := Qceiling q in
      if (target <=? Z.of_nat (length first))%Z then Some first
      else if (target <=? max_length)%Z
           then Some (Segment.pad first (Z.to_nat target - length first))
           else None
  | NaN | NegInfinity => Some first
  | PosInfinity => None
  end.

(** Lines 127-147, for any number as [max]. *)
Definition splitHanziToChars (intl : Segment.IntlSegmenter) (text : jsstring)
    (max : number) : option (list jsstring) :=
  match text with
  | [] => new_Array_fill max
  | _ =>
      let cleaned := Segment.clean text in
      let units := Segment.units_of intl cleaned in
      let first := slice_to units max in
      pad_to first max
  end.


End Js.

(** ** fitFontSize (source lines 161-178) *)

Module Sizer.

Local Open Scope Z_scope.

(** Numbers: the box, the padding and the measured widths are rationals;
    the size is an integer from [Math.floor] on.  The arithmetic here is
    exact.  It is the double arithmetic of the code wherever that is exact,
    as it is for a box and a padding that are whole numbers of magnitude up
    to 2^50 ([SizerDomain.whole]): the general properties of the sizer are
    stated for these.

    The canvas context, as far as the sizer uses it: the width
    [measureText(text).width] once [font] is set to [size]px. *)
Definition Measure := jsstring -> Z -> Q.

Definition Qgtb (a b : Q) : bool := negb (Qle_bool a b).

(** The loop condition of line 172. *)
Definition overflows (measure : Measure) (text : jsstring)
    (boxW boxH padding : Q) (size : Z) : bool :=
  (Qgtb (measure text size) (boxW - 2 * padding)%Q
   || Qgtb (inject_Z size) (boxH - 2 * padding)%Q)
  && (12 <? size).

(** The [while] loop of lines 172-176; it stops because [size] goes down
    by 2 as long as it is above 12. *)
Equations? shrink (measure : Measure) (text : jsstring)
    (boxW boxH padding : Q) (size : Z) : Z
  by wf (Z.to_nat (size - 12)) lt :=
  shrink measure text boxW boxH padding size with
    inspect (overflows measure text boxW boxH padding size) => {
    | exist _ true Hc => shrink measure text boxW boxH padding (size - 2);
    | exist _ false _ => size }.
Proof.
  unfold overflows in Hc. apply andb_prop in Hc as [_ Hc].
  apply Z.ltb_lt in Hc. lia.
Qed.

Definition initial_size (boxW boxH padding : Q) : Z :=
  Z.max 12 (Qfloor (Qmin boxW boxH - padding * 2)%Q).

Definition fitFontSize (measure : Measure) (text : jsstring)
    (boxW boxH padding : Q) : Z :=
  shrink measure text boxW boxH padding (initial_size boxW boxH padding).

End Sizer.

Module SizerDomain.

(** Box and padding in whole pixels, small enough for every difference,
    product and step of the sizer to be exact in doubles. *)
Definition whole (boxW boxH padding : Z) : Prop :=
  (Z.abs boxW <= 2 ^ 50 /\ Z.abs boxH <= 2 ^ 50 /\ Z.abs padding <= 2 ^ 50)%Z.

End SizerDomain.

(** ** Double arithmetic

    A finite double is written as the rational number it is.  The result of
    a double operation is the exact result rounded to 53 significant bits,
    ties to the even mantissa; the limits of the exponent play no part in
    the numbers formed here. *)

Module Double.

Local Open Scope Q_scope.

(** The integer nearest to [m], the even one at a tie. *)
Definition half_even (m : Q) : Z :=
  let f := Qfloor m in
  match Qcompare (m - inject_Z f) (1 # 2) with
  | Lt => f
  | Gt => (f + 1)%Z
  | Eq => if Z.even f then f else (f + 1)%Z
  end.

(** For [x] above 0, the [e] with [2^e <= x < 2^(e+1)]. *)
Definition binade (x : Q) : Z :=
  let k := (Z.log2 (Qnum x) - Z.log2 (Zpos (Qden x)))%Z in
  if Qle_bool (2 ^ k) x then k else (k - 1)%Z.

(** The double nearest to [x]. *)
Definition round53 (x : Q) : Q :=
  match Qnum x with
  | Zpos _ =>
      let e := binade x in
      inject_Z (half_even (x * 2 ^ (52 - e))) * 2 ^ (e - 52)
  | Z0 => 0
  | Zneg _ =>
      let e := binade (- x) in
      - (inject_Z (half_even (- x * 2 ^ (52 - e))) * 2 ^ (e - 52))
  end.

(** The largest double below 1, [1 - 2^-53]. *)
Definition below_one : Q := 9007199254740991 # 9007199254740992.

End Double.

(** ** Randomness and identifiers

    [Math.random()] and [uuid()] (source lines 90-92) read the host's random
    generator and clock.  They are modelled as two oracles; a computation
    that draws from them passes the oracle state along. *)

(** A result of [Math.random()]: a double in the interval [0, 1). *)
Record Random := mkRandom {
  rval : Q;
  rval_range : Qle_bool 0 rval && Qle_bool rval Double.below_one = true;
  rval_double : Qeq_bool (Double.round53 rval) rval = true
}.

Record World := mkWorld {
  uuid_count : nat;                 (* calls of uuid() so far *)
  uuid_source : nat -> jsstring;    (* the n-th result of uuid() *)
  random_count : nat;               (* calls of Math.random() so far,
                                       those of uuid() among them *)
  random_source : nat -> Random     (* the n-th result of Math.random() *)
}.

Definition Eff (A : Type) : Type := World -> A * World.

Definition ret {A} (a : A) : Eff A := λ w, (a, w).

Definition bind {A B} (m : Eff A) (k : A -> Eff B) : Eff B :=
  λ w, let (a, w') := m w in k a w'.

Declare Scope eff_scope.
Delimit Scope eff_scope with eff.
Notation "'let*' x ':=' m 'in' k" := (bind m (λ x, k))
  (at level 10, x name, m at level 100, k at level 200) : eff_scope.

Definition Math_random : Eff Random :=
  λ w, (random_source w (random_count w),
        mkWorld (uuid_count w) (uuid_source w) (S (random_count w)) (random_source w)).

(** [uuid()] (line 91) calls [Math.random()] once and reads the clock; the
    string it builds from the two is the oracle's. *)
Definition uuid : Eff jsstring :=
  (let* _drawn := Math_random in
   λ w, (uuid_source w (uuid_count w),
         mkWorld (S (uuid_count w)) (uuid_source w)
                 (random_count w) (random_source w)))%eff.

(** ** shuffle (source lines 113-120) *)

(** [Math.floor(r * (i + 1))]: the product is a double product. *)
Definition random_index (r : Random) (i : nat) : nat :=
  Z.to_nat (Qfloor (Double.round53 (rval r * inject_Z (Z.of_nat (i + 1))))).

(** [[copy[i], copy[j]] = [copy[j], copy[i]]].  Both reads are in range
    whenever [shuffle] runs ([random_index_le], [shuffle_loop] starts below
    the length); out of range JavaScript would store [undefined], which a
    list of [T] cannot hold, and the copy is returned as it is. *)
Definition swap {T} (i j : nat) (copy : list T) : list T :=
  match copy !! j, copy !! i with
  | Some cj, Some ci => <[j := ci]> (<[i := cj]> copy)
  | _, _ => copy
  end.

(** The [for] loop, [i] going down to 1. *)
Fixpoint shuffle_loop {T} (i : nat) (copy : list T) : Eff (list T) :=
  match i with
  | 0 => ret copy
  | S i' =>
      (let* r := Math_random in
       let j := random_index r i in
       shuffle_loop i' (swap i j copy))%eff
  end.

Definition shuffle {T} (array : list T) : Eff (list T) :=
  let copy := array in
  shuffle_loop (length copy - 1) copy.

(** ** textToCards (source lines 122-124) *)

Fixpoint textToCards (vocab : list Vocab) : Eff (list Card) :=
  match vocab with
  | [] => ret []
  | v :: rest =>
      (let* i := uuid in
       let* b := uuid in
       let* more := textToCards rest in
       ret (mkCard i (Some b) (Some (v_hanzi v)) (Some (v_pinyin v))
                   (Some (v_english v)) None None :: more))%eff
  end.

(** The cards [textToCards] makes, without the monad: the card of the
    [n]-th record takes the draws [2n] and [2n+1] after [c]. *)
Fixpoint cards_from (src : nat -> jsstring) (c : nat) (vocab : list Vocab) : list Card :=
  match vocab with
  | [] => []
  | v :: rest =>
      mkCard (src c) (Some (src (S c))) (Some (v_hanzi v)) (Some (v_pinyin v))
             (Some (v_english v)) None None
      :: cards_from src (S (S c)) rest
  end.


(** The vocabulary record a card shows, when the card has all three texts. *)
Definition record_of (c : Card) : option Vocab :=
  match hanzi c, pinyin c, english c with
  | Some h, Some p, Some e => Some (mkVocab h p e)
  | _, _, _ => None
  end.

(** ** MultiCanvas (source lines 181-348) *)

Module Surface.

(** The ink layer of one [DrawCanvas]: the points stroked so far. *)
Definition Ink := list (Z * Z).

(** The state that lives in a mounted [MultiCanvas]: the [slot] hook and
    the ink of its four canvases. *)
Record MultiCanvas := mkMultiCanvas {
  slot : nat;
  inks : list Ink
}.

(** A freshly mounted surface: [useState(0)], four blank canvases. *)
Definition mounted : MultiCanvas := mkMultiCanvas 0 (replicate 4 []).

(** Line 317 and 318, the updaters given to [setSlot]. *)
Definition goLeft (s : nat) : nat := (s + 3) mod 4.
Definition goRight (s : nat) : nat := (s + 1) mod 4.

Definition setSlot (f : nat -> nat) (m : MultiCanvas) : MultiCanvas :=
  mkMultiCanvas (f (slot m)) (inks m).

(** Line 314: [refs.forEach((r) => r.current?.clear())]. *)
Definition clear_all (m : MultiCanvas) : MultiCanvas :=
  mkMultiCanvas (slot m) (map (λ _, []) (inks m)).

(** A stroke on the canvas in view, the one at index [slot]. *)
Definition draw (p : Z * Z) (m : MultiCanvas) : MultiCanvas :=
  mkMultiCanvas (slot m) (alter (λ k, k ++ [p]) (slot m) (inks m)).

End Surface.

(** ** HanziTrainer (source lines 353-436) *)

Section HanziTrainer.

(** The vocabulary of the session, [parseCSV2(sampleCSV)]. *)
Variable vocab : list Vocab.

(** The four [useState] hooks of lines 354-357. *)
Record Trainer := mkTrainer {
  cards : list Card;
  idx : nat;
  showAnswer : bool;
  clearSignal : nat
}.

(** The values of the first render. *)
Definition first_render : Trainer := mkTrainer [] 0 false 0.

(** The setters; each takes an updater, as the functional form of
    [setState] does. *)
Definition setCards (f : list Card -> list Card) (s : Trainer) : Trainer :=
  mkTrainer (f (cards s)) (idx s) (showAnswer s) (clearSignal s).
Definition setIdx (f : nat -> nat) (s : Trainer) : Trainer :=
  mkTrainer (cards s) (f (idx s)) (showAnswer s) (clearSignal s).
Definition setShowAnswer (b : bool) (s : Trainer) : Trainer :=
  mkTrainer (cards s) (idx s) b (clearSignal s).
Definition setClearSignal (f : nat -> nat) (s : Trainer) : Trainer :=
  mkTrainer (cards s) (idx s) (showAnswer s) (f (clearSignal s)).

(** Line 358: [const current = cards[idx]]. *)
Definition current (s : Trainer) : option Card := cards s !! idx s.

(** The session is finished when line 402 takes the "Done!" branch. *)
Definition exhausted (s : Trainer) : bool :=
  match current s with None => true | Some _ => false end.

(** Lines 360-367.  All four hooks are overwritten. *)
Definition loadCards (s : Trainer) : Eff Trainer :=
  (let* made := textToCards vocab in
   let* shuffled := shuffle made in
   ret (setClearSignal (λ _, 0)
         (setShowAnswer false
           (setIdx (λ _, 0)
             (setCards (λ _, shuffled) s)))))%eff.

(** Line 374. *)
Definition clearAllCanvases (s : Trainer) : Trainer :=
  setClearSignal (λ x, x + 1) s.

(** A handler is a closure over the values of the render it was created
    in ([r]) and queues updates that React applies to the pending state
    ([s]).  Lines 376-380: [cards.length] is the length in [r]. *)
Definition next (r s : Trainer) : Trainer :=
  clearAllCanvases
    (setShowAnswer false
      (setIdx (λ i, Nat.min (i + 1) (length (cards r))) s)).

(** [{ ...card, id: fresh, scheduledShort: true }], where [card] may be
    [undefined]. *)
Definition clone_short (card : option Card) (fresh : jsstring) : Card :=
  mkCard fresh (card ≫= baseId) (card ≫= hanzi) (card ≫= pinyin)
         (card ≫= english) (Some true) (card ≫= scheduledEnd).

(** [{ ...card, id: fresh, scheduledEnd: true }] *)
Definition clone_end (card : option Card) (fresh : jsstring) : Card :=
  mkCard fresh (card ≫= baseId) (card ≫= hanzi) (card ≫= pinyin)
         (card ≫= english) (card ≫= scheduledShort) (Some true).

(** [copy.splice(start, 0, item)] for a [start] that is not negative;
    a [start] beyond the end is taken as the length. *)
Definition splice_in {T} (start : nat) (item : T) (copy : list T) : list T :=
  let at_ := Nat.min start (length copy) in
  take at_ copy ++ item :: drop at_ copy.

(** The updater given to [setCards] in lines 386-392. *)
Definition reinsert (r : Trainer) (short atEnd : Card) (prev : list Card) : list Card :=
  let copy := prev in
  let insertPos := Nat.min (idx r + 4) (length copy) in
  let copy := splice_in insertPos short copy in
  copy ++ [atEnd].

(** Lines 382-395. *)
Definition onIncorrect (r s : Trainer) : Eff Trainer :=
  (let card := cards r !! idx r in
   let* idShort := uuid in
   let short := clone_short card idShort in
   let* idEnd := uuid in
   let atEnd := clone_end card idEnd in
   ret (next r (clearAllCanvases (setCards (reinsert r short atEnd) s))))%eff.

(** Lines 397-400; the request to speak the pinyin leaves the state
    alone. *)
Definition onCheck (s : Trainer) : Trainer := setShowAnswer true s.

(** *** The component tree

    The trainer's hooks, the state of the [MultiCanvas] below it while one
    is mounted (line 431; the "Done!" branch of line 402 renders none), and
    the oracles. *)
Record App := mkApp {
  trainer : Trainer;
  surface : option Surface.MultiCanvas;
  world : World
}.

(** What React does with the surface when the trainer goes from [before]
    to [after]: unmount it when there is no current card, mount a new one
    when there was none, otherwise keep its state and run the effect of
    line 313 if [clearSignal] is not the same. *)
Definition reconcile (before after : Trainer) (m : option Surface.MultiCanvas)
  : option Surface.MultiCanvas :=
  match current after with
  | None => None
  | Some _ =>
      match m with
      | None => Some Surface.mounted
      | Some mc =>
          if decide (clearSignal after = clearSignal before)
          then Some mc
          else Some (Surface.clear_all mc)
      end
  end.

Definition rerender (a : App) (after : Trainer) (w : World) : App :=
  mkApp after (reconcile (trainer a) after (surface a)) w.

(** The prop [showGhost] of line 431. *)
Definition showGhost (a : App) : bool := showAnswer (trainer a).

(** What the learner can do. *)
Inductive Event :=
| Check                 (* "Check / Toon antwoord" *)
| Correct               (* "✓ Correct", [next] *)
| Fout                  (* "✗ Fout", [onIncorrect] *)
| StartAgain            (* "🔁 Start Again", [loadCards] *)
| ArrowLeft             (* "◀" or the left arrow key *)
| ArrowRight            (* "▶" or the right arrow key *)
| Stroke (p : Z * Z).   (* a pointer move with the pointer down *)

Definition on_surface (f : Surface.MultiCanvas -> Surface.MultiCanvas) (a : App) : App :=
  mkApp (trainer a) (f <$> surface a) (world a).

(** One event, handled and rendered.  [None]: the control is not on the
    page (lines 402-415 show only "Start Again"; lines 424-429 show the two
    grading buttons only once the answer is shown). *)
Definition handle (e : Event) (a : App) : option App :=
  let t := trainer a in
  match current t with
  | None =>
      match e with
      | StartAgain => let (t', w') := loadCards t (world a) in Some (rerender a t' w')
      | _ => None
      end
  | Some _ =>
      match e with
      | Check => Some (rerender a (onCheck t) (world a))
      | Correct =>
          if showAnswer t then Some (rerender a (next t t) (world a)) else None
      | Fout =>
          if showAnswer t
          then let (t', w') := onIncorrect t t (world a) in Some (rerender a t' w')
          else None
      | StartAgain => None
      | ArrowLeft => Some (on_surface (Surface.setSlot Surface.goLeft) a)
      | ArrowRight => Some (on_surface (Surface.setSlot Surface.goRight) a)
      | Stroke p => Some (on_surface (Surface.draw p) a)
      end
  end.

(** The page after mounting: the effect of lines 370-372 has run. *)
Definition start (w : World) : App :=
  let (t, w') := loadCards first_render w in
  rerender (mkApp first_render None w) t w'.

(** A run of events. *)
Fixpoint run (es : list Event) (a : App) : option App :=
  match es with
  | [] => Some a
  | e :: rest =>
      match handle e a with
      | Some a' => run rest a'
      | None => None
      end
  end.

Definition is_grading (e : Event) : bool :=
  match e with Correct | Fout => true | _ => false end.

Definition is_incorrect (e : Event) : bool :=
  match e with Fout => true | _ => false end.

(** The number of gradings in a run. *)
Definition gradings (es : list Event) : nat := length (filter (λ e, is_grading e = true) es).
Definition incorrects (es : list Event) : nat := length (filter (λ e, is_incorrect e = true) es).

End HanziTrainer.

(** ** Runs of the page *)

(** The run in which the learner checks and grades "correct" [k] times. *)
Definition all_correct (k : nat) : list Event :=
  concat (replicate k [Check; Correct]).

(** What every rendered page satisfies: the cursor is within the queue or
    just past it, a surface is mounted exactly when there is a current card,
    and a mounted surface has four canvases and a slot among them. *)
Definition consistent (a : App) : Prop :=
  idx (trainer a) <= length (cards (trainer a)) /\
  match surface a with
  | Some m =>
      is_Some (current (trainer a))
      /\ Surface.slot m < 4 /\ length (Surface.inks m) = 4
  | None => current (trainer a) = None
  end.

(** ** Three sentences of the specification, as they are written

    Each is compared with the code in the properties part. *)

Module Stated.


(** "advanceOnCorrect/advanceOnIncorrect on an already-exhausted queue
    are no-ops". *)
Definition exhausted_gradings_are_noops : Prop :=
  forall s w,
    idx s = length (cards s) ->
    (cards (next s s) = cards s /\ idx (next s s) = idx s)
    /\ (cards (onIncorrect s s w).1 = cards s
        /\ idx (onIncorrect s s w).1 = idx s).

(** "restart(records) produces ... the same multiset of sourceIds every
    time"; the card property that plays the part of sourceId is
    [baseId]. *)
Definition restart_same_source_ids (vocab : list Vocab) : Prop :=
  forall s1 w1 s2 w2,
    map baseId (cards (loadCards vocab s1 w1).1)
    ≡ₚ map baseId (cards (loadCards vocab s2 w2).1).


End Stated.

(** ** Sample data used by the closed examples *)

Module Samples.

(** 你好, 汉日词典 and "中 国" (with U+0020), in UTF-16. *)
Definition ni_hao : jsstring := [0x4F60; 0x597D]%N.
Definition han_ri_cidian : jsstring := [0x6C49; 0x65E5; 0x8BCD; 0x5178]%N.
Definition zhong_guo_spaced : jsstring := [0x4E2D; 0x20; 0x56FD]%N.

(** A font in which every code unit is one em wide. *)
Definition one_em_each : Sizer.Measure :=
  λ text size, inject_Z (size * Z.of_nat (length text)).

Definition half : Random := mkRandom (1 # 2) eq_refl eq_refl.
Definition zero : Random := mkRandom 0 eq_refl eq_refl.

(** Two hosts whose [uuid()] results differ. *)
Definition host_a : World :=
  mkWorld 0 (λ n, [0x61; N.of_nat n]%N) 0 (λ n, if Nat.even n then half else zero).
Definition host_b : World :=
  mkWorld 0 (λ n, [0x62; N.of_nat n]%N) 0 (λ _, zero).

Definition three_words : list Vocab :=
  [ mkVocab [0x4F60]%N [0x6E; 0x1D0]%N [0x79; 0x6F; 0x75]%N;
    mkVocab [0x597D]%N [0x68; 0x1CE; 0x6F]%N [0x67; 0x6F; 0x6F; 0x64]%N;
    mkVocab [0x662F]%N [0x73; 0x68; 0xEC]%N [0x79; 0x65; 0x73]%N ].

Definition a_card : Card :=
  mkCard [0x31]%N (Some [0x32]%N) (Some [0x4F60]%N) (Some [0x6E; 0x1D0]%N)
         (Some [0x79; 0x6F; 0x75]%N) None None.

End Samples.

(** ** liteSplit and parseCSV2 (source lines 94-111) *)

Module Csv.

Definition comma : N := 0x2C%N.
Definition line_feed : N := 0x0A%N.
Definition carriage_return : N := 0x0D%N.

(** Puts [c] in front of the first piece. *)
Definition cons_to_first (c : N) (pieces : list jsstring) : list jsstring :=
  match pieces with
  | piece :: more => (c :: piece) :: more
  | [] => [[c]]
  end.

(** [s.split(sep)] for a separator of one code unit; the empty string
    gives one empty piece. *)
Fixpoint split_on (sep : N) (s : jsstring) : list jsstring :=
  match s with
  | [] => [[]]
  | c :: rest =>
      if (c =? sep)%N then [] :: split_on sep rest
      else cons_to_first c (split_on sep rest)
  end.

(** [parts.join(sep)] *)
Fixpoint join (sep : N) (parts : list jsstring) : jsstring :=
  match parts with
  | [] => []
  | part :: more =>
      match more with
      | [] => part
      | _ => part ++ sep :: join sep more
      end
  end.

(** Lines 94-97.  [parts[0] ?? ""] and [parts[1] ?? ""] are the piece or
    the empty string; [join] of the rest is always a string. *)
Definition liteSplit (line : jsstring) : list jsstring :=
  let parts := split_on comma line in
  [ default empty_string (parts !! 0);
    default empty_string (parts !! 1);
    join comma (drop 2 parts) ].

(** [text.split(/\r?\n/)]: a piece ends at a line feed, or at a carriage
    return that a line feed follows. *)
Fixpoint split_lines (text : jsstring) : list jsstring :=
  match text with
  | [] => [[]]
  | c :: rest =>
      if (c =? line_feed)%N then [] :: split_lines rest
      else
        match rest with
        | d :: rest' =>
            if (c =? carriage_return)%N && (d =? line_feed)%N
            then [] :: split_lines rest'
            else cons_to_first c (split_lines rest)
        | [] => [[c]]
        end
  end.

(** [l.trim()] removes the white space and line terminators at both ends;
    these are the code units of [\s]. *)
Fixpoint trim_start (s : jsstring) : jsstring :=
  match s with
  | c :: rest => if Segment.is_space c then trim_start rest else s
  | [] => []
  end.

Definition trim (s : jsstring) : jsstring :=
  reverse (trim_start (reverse (trim_start s))).

(** Matching under the flag [i] (without [u]): a letter of the pattern
    matches its two ASCII cases and nothing else. *)
Definition ascii_lower (c : N) : N :=
  if ((0x41 <=? c) && (c <=? 0x5A))%N then (c + 0x20)%N else c.

(** The literal [word] (in lower case) at the start of [s]; what follows. *)
Fixpoint match_word (word : list N) (s : jsstring) : option jsstring :=
  match word with
  | [] => Some s
  | x :: word' =>
      match s with
      | c :: rest => if (ascii_lower c =? x)%N then match_word word' rest else None
      | [] => None
      end
  end.

Definition word_hanzi : list N := [0x68; 0x61; 0x6E; 0x7A; 0x69]%N.
Definition word_pinyin : list N := [0x70; 0x69; 0x6E; 0x79; 0x69; 0x6E]%N.
Definition word_english : list N := [0x65; 0x6E; 0x67; 0x6C; 0x69; 0x73; 0x68]%N.

(** [/^\s*hanzi\s*,\s*pinyin\s*,\s*english\s*$/i.test(line)].  No literal of
    the pattern is white space, so the greedy [\s*] takes all of it and
    there is one way to match. *)
Definition is_header (line : jsstring) : bool :=
  match
    match_word word_hanzi (trim_start line) ≫= λ s1,
    match_word [comma] (trim_start s1) ≫= λ s2,
    match_word word_pinyin (trim_start s2) ≫= λ s3,
    match_word [comma] (trim_start s3) ≫= λ s4,
    match_word word_english (trim_start s4)
  with
  | Some s5 => match trim_start s5 with [] => true | _ => false end
  | None => false
  end.

(** The loop of lines 105-109, [out] being the records pushed so far.  A
    line whose first field is empty (or missing) is skipped. *)
Fixpoint collect (dataLines : list jsstring) (out : list Vocab) : list Vocab :=
  match dataLines with
  | [] => out
  | line :: rest =>
      let fields := liteSplit line in
      match fields !! 0 with
      | Some (c :: h) =>
          collect rest
            (out ++ [mkVocab (c :: h)
                             (default empty_string (fields !! 1))
                             (default empty_string (fields !! 2))])
      | _ => collect rest out
      end
  end.

(** Lines 99-111. *)
Definition parseCSV2 (text : jsstring) : list Vocab :=
  let lines :=
    filter (λ l, 0 < length l) (map trim (split_lines text)) in
  match lines with
  | [] => []
  | first :: others =>
      let dataLines := if is_header first then others else lines in
      collect dataLines []
  end.

(** The layout of [sampleCSV] (lines 32-87): the header, then one line
    [hanzi,pinyin,english] per record, with line feeds between the lines. *)
Definition header_line : jsstring := word_hanzi ++ comma :: word_pinyin ++ comma :: word_english.

Definition record_line (v : Vocab) : jsstring :=
  v_hanzi v ++ comma :: v_pinyin v ++ comma :: v_english v.

Definition csv_text (records : list Vocab) : jsstring :=
  join line_feed (header_line :: map record_line records).

(** A record that its line gives back: the first field is not empty and,
    like the second, has no comma; the line has no line feed and no white
    space at either end. *)
Definition writable (v : Vocab) : Prop :=
  v_hanzi v <> []
  /\ (comma ∉ v_hanzi v)
  /\ (comma ∉ v_pinyin v)
  /\ (line_feed ∉ record_line v)
  /\ trim (record_line v) = record_line v.

(** What every record read from a text has: a first field, no comma in
    the first two fields, no line feed anywhere. *)
Definition clean_record (v : Vocab) : Prop :=
  v_hanzi v <> [] /\ (comma ∉ v_hanzi v) /\ (comma ∉ v_pinyin v)
  /\ (line_feed ∉ v_hanzi v) /\ (line_feed ∉ v_pinyin v) /\ (line_feed ∉ v_english v).

End Csv.

(** ** The ghost layer (source lines 204-220, 309, 336 and 431) *)

Module Ghost.

(** What the effect of lines 204-220 draws on the ghost canvas of one slot:
    nothing, or [ghostChar] at the fitted size. *)
Definition layer (measure : Sizer.Measure) (width height : Q)
    (ghostChar : jsstring) (showGhost : bool) : option (jsstring * Z) :=
  match showGhost, ghostChar with
  | true, _ :: _ => Some (ghostChar, Sizer.fitFontSize measure ghostChar width height 16)
  | _, _ => None
  end.

(** The four ghost layers of the page: line 431 passes 300 by 300, the text
    of the current card and [showAnswer]; line 309 cuts the text in four.  A
    card without [hanzi] gives four empty units, as the empty text does.  The
    "Done!" page has no canvas. *)
Definition layers (intl : Segment.IntlSegmenter) (measure : Sizer.Measure) (a : App)
  : list (option (jsstring * Z)) :=
  match current (trainer a) with
  | Some card =>
      map (λ ch, layer measure 300 300 ch (showAnswer (trainer a)))
          (Segment.splitHanziToChars intl (default empty_string (hanzi card)) 4)
  | None => []
  end.

End Ghost.

(** ** More sample data *)

Module MoreSamples.

(** 好,hǎo,"good, fine" and 吗,ma with an empty third field. *)
Definition hao : Vocab :=
  mkVocab [0x597D]%N [0x68; 0x1CE; 0x6F]%N
          [0x67; 0x6F; 0x6F; 0x64; 0x2C; 0x20; 0x66; 0x69; 0x6E; 0x65]%N.
Definition ma : Vocab := mkVocab [0x5417]%N [0x6D; 0x61]%N [].

(** A host whose identifiers are all different. *)
Definition counting_host : World :=
  mkWorld 0 (fun n => [N.of_nat n]) 0 (fun _ => Samples.half).

End MoreSamples.

(** ** Two properties of pages *)

Module Invariants.

(** Every card of the queue shows a record of the vocabulary. *)
Definition shows_vocabulary (vocab : list Vocab) (a : App) : Prop :=
  Forall (fun c => exists v, v ∈ vocab /\ record_of c = Some v)
         (cards (trainer a)).

(** The [id]s of the queue differ from one another and are results of
    [uuid()] calls already made. *)
Definition ids_drawn (a : App) : Prop :=
  NoDup (map id (cards (trainer a)))
  /\ Forall (fun c => exists n, n < uuid_count (world a)
                               /\ id c = uuid_source (world a) n)
            (cards (trainer a)).

End Invariants.

(** * Properties *)

(** ** The segmenter *)

Module SegmentFacts.
Import Segment.

Lemma pad_app (first : list jsstring) (k : nat) :
  pad first k = first ++ replicate k empty_string.
Proof.
  revert first. induction k as [|k IH]; intros first; simpl.
  - by rewrite app_nil_r.
  - rewrite IH, <- app_assoc. reflexivity.
Qed.

Lemma clean_no_space (text : jsstring) :
  Forall (λ c, is_space c = false ∧ c ≠ 0x3000%N) (clean text).
Proof.
  apply list.Forall_forall. intros c Hc. unfold clean in Hc.
  apply list_elem_of_filter in Hc as [Hc _].
  apply orb_false_elim in Hc as [H1 H2]. split; [exact H1|].
  by apply N.eqb_neq.
Qed.

Lemma clean_keeps (text : jsstring) (c : N) :
  c ∈ text → is_space c = false → c ∈ clean text.
Proof.
  intros Hin Hc. unfold clean. apply list_elem_of_filter. split; [|done].
  rewrite Hc. simpl. apply N.eqb_neq. intros ->. discriminate Hc.
Qed.

Lemma array_from_cons2 (a b : N) (t : jsstring) :
  array_from (a :: b :: t) =
    if is_high_surrogate a && is_low_surrogate b
    then [a; b] :: array_from t
    else [a] :: array_from (b :: t).
Proof. reflexivity. Qed.

(** [Array.from] loses nothing: gluing the units gives the string back. *)
Lemma array_from_concat (s : jsstring) : concat (array_from s) = s.
Proof.
  remember (length s) as n eqn:Hn.
  revert s Hn. induction (lt_wf n) as [n _ IH]. intros s Hn.
  destruct s as [|a [|b t]]; [done | done |].
  rewrite array_from_cons2.
  destruct (is_high_surrogate a && is_low_surrogate b); rewrite concat_cons.
  - rewrite (IH (length t)); subst n; simpl; [done | lia | done].
  - rewrite (IH (length (b :: t))); subst n; simpl; [done | lia | done].
Qed.

(** Each unit of [Array.from] is one code unit or one surrogate pair. *)
Lemma array_from_units (s : jsstring) :
  Forall (λ u, (∃ a, u = [a]) ∨
               (∃ a b, u = [a; b] ∧ is_high_surrogate a = true
                                  ∧ is_low_surrogate b = true))
         (array_from s).
Proof.
  remember (length s) as n eqn:Hn.
  revert s Hn. induction (lt_wf n) as [n _ IH]. intros s Hn.
  destruct s as [|a [|b t]].
  - constructor.
  - constructor; [left; eauto | constructor].
  - rewrite array_from_cons2.
    destruct (is_high_surrogate a && is_low_surrogate b) eqn:Hs.
    + apply andb_prop in Hs as [Ha Hb]. constructor.
      * right. eauto.
      * eapply IH; [|reflexivity]. subst n. simpl. lia.
    + constructor; [left; eauto |].
      eapply IH; [|reflexivity]. subst n. simpl. lia.
Qed.

Lemma splitHanziToChars_unfold intl text max :
  splitHanziToChars intl text max =
    match text with
    | [] => replicate max empty_string
    | _ => take max (units_of intl (clean text))
           ++ replicate (max - length (units_of intl (clean text))) empty_string
    end.
Proof.
  unfold splitHanziToChars. destruct text as [|c text]; [done|].
  rewrite pad_app. f_equal. f_equal. rewrite length_take. lia.
Qed.

End SegmentFacts.

(** ** The sizer *)

Module SizerFacts.
Import Sizer.
Local Open Scope Z_scope.

Lemma overflows_above_12 measure text boxW boxH padding size :
  overflows measure text boxW boxH padding size = true → 12 < size.
Proof.
  unfold overflows. intros [_ H]%andb_prop. by apply Z.ltb_lt in H.
Qed.

(** The loop never goes further than one step below 12. *)
Lemma shrink_ge_11 measure text boxW boxH padding size :
  11 <= size → 11 <= shrink measure text boxW boxH padding size.
Proof.
  funelim (shrink measure text boxW boxH padding size); intros Hs.
  - match goal with IH : _ → 11 <= shrink _ _ _ _ _ _ |- _ => apply IH end.
    pose proof (overflows_above_12 _ _ _ _ _ _ Hc). lia.
  - lia.
Qed.

(** From an even size the loop stops at 12 or above. *)
Lemma shrink_even_ge_12 measure text boxW boxH padding size :
  Z.even size = true → 12 <= size →
  12 <= shrink measure text boxW boxH padding size.
Proof.
  funelim (shrink measure text boxW boxH padding size); intros He Hs.
  - match goal with IH : _ → _ → 12 <= shrink _ _ _ _ _ _ |- _ => apply IH end.
    + rewrite Z.even_sub. rewrite He. reflexivity.
    + pose proof (overflows_above_12 _ _ _ _ _ _ Hc).
      assert (size ≠ 13) by (intros ->; discriminate He). lia.
  - lia.
Qed.

Lemma shrink_le measure text boxW boxH padding size :
  shrink measure text boxW boxH padding size <= size.
Proof.
  funelim (shrink measure text boxW boxH padding size).
  - match goal with IH : shrink _ _ _ _ _ _ <= _ |- _ => lia end.
  - lia.
Qed.

Lemma initial_size_ge_12 boxW boxH padding : 12 <= initial_size boxW boxH padding.
Proof. unfold initial_size. lia. Qed.

Lemma fitFontSize_ge_11 measure text boxW boxH padding :
  11 <= fitFontSize measure text boxW boxH padding.
Proof.
  apply shrink_ge_11. pose proof (initial_size_ge_12 boxW boxH padding). lia.
Qed.

Lemma fitFontSize_even_start measure text boxW boxH padding :
  Z.even (initial_size boxW boxH padding) = true →
  12 <= fitFontSize measure text boxW boxH padding.
Proof. intros He. apply shrink_even_ge_12; [done | apply initial_size_ge_12]. Qed.

End SizerFacts.

(** ** Double rounding *)

Module DoubleFacts.
Import Double.
Local Open Scope Q_scope.

Lemma half_even_le (m : Q) : inject_Z (half_even m) <= m + (1 # 2).
Proof.
  unfold half_even. pose proof (Qfloor_le m) as Hf.
  destruct (Qcompare_spec (m - inject_Z (Qfloor m)) (1 # 2)) as [He|Hl|Hg].
  - destruct (Z.even (Qfloor m)).
    + lra.
    + rewrite inject_Z_plus. change (inject_Z 1) with 1. lra.
  - lra.
  - rewrite inject_Z_plus. change (inject_Z 1) with 1. lra.
Qed.

Lemma two_power_pos (k : Z) : 0 < 2 ^ k.
Proof. apply Qpower_0_lt. reflexivity. Qed.

Lemma two_power_add (a b : Z) : 2 ^ (a + b) == 2 ^ a * 2 ^ b.
Proof. apply Qpower_plus. discriminate. Qed.

(** The binade starts at or below the number. *)
Lemma binade_le (x : Q) : 0 < x → 2 ^ binade x <= x.
Proof.
  intros Hx. unfold binade.
  set (k := (Z.log2 (Qnum x) - Z.log2 (Z.pos (Qden x)))%Z).
  destruct (Qle_bool (2 ^ k) x) eqn:Hk; [by apply Qle_bool_iff|].
  destruct x as [a b]. cbn [Qnum Qden] in *.
  assert (Ha : (0 < a)%Z). { unfold Qlt in Hx. cbn in Hx. lia. }
  destruct (Z.log2_spec a Ha) as [Hla _].
  destruct (Z.log2_spec (Z.pos b) (Pos2Z.is_pos b)) as [_ Hlb].
  pose proof (Z.log2_nonneg a) as Hna.
  pose proof (Z.log2_nonneg (Z.pos b)) as Hnb.
  replace (k - 1)%Z with (Z.log2 a + - (Z.succ (Z.log2 (Z.pos b))))%Z
    by (unfold k; lia).
  rewrite two_power_add, Qpower_opp.
  rewrite <- !(Zpower_Qpower 2) by lia.
  set (P := (2 ^ Z.log2 a)%Z) in *.
  set (T := (2 ^ Z.succ (Z.log2 (Z.pos b)))%Z) in *.
  clearbody P T. clear Hk. destruct T as [|t|t]; try lia.
  unfold Qle, Qmult, Qinv. cbn. nia.
Qed.

(** Rounding moves a positive number up by at most one part in [2^53]. *)
Lemma round53_le (x : Q) : 0 < x → round53 x <= x + x * (1 # 9007199254740992).
Proof.
  intros Hx. unfold round53.
  destruct (Qnum x) as [|n|n] eqn:Hn.
  - exfalso. unfold Qlt in Hx. rewrite Hn in Hx. cbn in Hx. lia.
  - cbv zeta. set (e := binade x).
    pose proof (binade_le x Hx) as He. fold e in He.
    pose proof (half_even_le (x * 2 ^ (52 - e))) as HM.
    pose proof (two_power_pos (e - 52)) as Hq.
    assert (Hpq : 2 ^ (52 - e) * 2 ^ (e - 52) == 1).
    { rewrite <- two_power_add.
      replace (52 - e + (e - 52))%Z with 0%Z by lia. reflexivity. }
    assert (Hqe : 2 ^ (e - 52) == 2 ^ e * (1 # 4503599627370496)).
    { replace (e - 52)%Z with (e + -52)%Z by lia. rewrite two_power_add.
      reflexivity. }
    set (M := inject_Z (half_even (x * 2 ^ (52 - e)))) in *.
    set (p := 2 ^ (52 - e)) in *. set (q := 2 ^ (e - 52)) in *.
    set (t := 2 ^ e) in *. clearbody M p q t.
    apply Qle_trans with ((x * p + (1 # 2)) * q).
    { apply Qmult_le_compat_r; [exact HM | by apply Qlt_le_weak]. }
    assert (Heq : (x * p + (1 # 2)) * q == x * (p * q) + (1 # 2) * q) by ring.
    rewrite Heq, Hpq, Hqe. lra.
  - exfalso. unfold Qlt in Hx. rewrite Hn in Hx. cbn in Hx. lia.
Qed.

Lemma round53_zero (x : Q) : x == 0 → round53 x == 0.
Proof.
  intros Hx. unfold round53.
  assert (Hn : Qnum x = 0%Z).
  { unfold Qeq in Hx. cbn in Hx. lia. }
  by rewrite Hn.
Qed.

End DoubleFacts.

(** ** The shuffle and the cards made from the vocabulary *)

Module DeckFacts.

Lemma random_below_one (r : Random) :
  (0 <= rval r)%Q ∧ (rval r <= Double.below_one)%Q.
Proof.
  destruct r as [q Hq Hd]. simpl. apply andb_prop in Hq as [H0 H1].
  split; by apply Qle_bool_iff.
Qed.

(** The index drawn in line 116 lies in [0, i]. *)
Lemma random_index_le (r : Random) (i : nat) : random_index r i ≤ i.
Proof.
  unfold random_index. destruct (random_below_one r) as [Hge Hle].
  set (n := inject_Z (Z.of_nat (i + 1))).
  assert (Hn : (0 < n)%Q).
  { unfold n. rewrite <- (Zlt_Qlt 0). lia. }
  assert (Hbound : (Double.round53 (rval r * n) < n)%Q).
  { destruct (Qlt_le_dec 0 (rval r * n)) as [Hpos|Hzero].
    - eapply Qle_lt_trans; [by apply DoubleFacts.round53_le|].
      assert (Hx : (rval r * n <= Double.below_one * n)%Q).
      { apply Qmult_le_compat_r; [exact Hle | by apply Qlt_le_weak]. }
      unfold Double.below_one in Hx.
      generalize dependent (rval r * n)%Q. intros x. intros. clearbody n. lra.
    - assert (Hx : (rval r * n == 0)%Q).
      { apply Qle_antisym; [exact Hzero|]. apply Qmult_le_0_compat; [exact Hge|].
        by apply Qlt_le_weak. }
      rewrite (DoubleFacts.round53_zero _ Hx). exact Hn. }
  assert (Hf : (Qfloor (Double.round53 (rval r * n)) < Z.of_nat (i + 1))%Z).
  { rewrite Zlt_Qlt. eapply Qle_lt_trans; [apply Qfloor_le | exact Hbound]. }
  lia.
Qed.

Lemma swap_perm {T} (i j : nat) (copy : list T) : swap i j copy ≡ₚ copy.
Proof.
  unfold swap. destruct (copy !! j) as [cj|] eqn:Hj; [|done].
  destruct (copy !! i) as [ci|] eqn:Hi; [|done].
  by apply Permutation_insert_swap.
Qed.

(** In range, [swap] is the exchange of the two elements. *)
Lemma swap_in_range {T} (i j : nat) (copy : list T) :
  i < length copy → j ≤ i →
  ∃ ci cj, copy !! i = Some ci ∧ copy !! j = Some cj
           ∧ swap i j copy = <[j := ci]> (<[i := cj]> copy).
Proof.
  intros Hi Hj.
  destruct (lookup_lt_is_Some_2 copy i Hi) as [ci Hci].
  destruct (lookup_lt_is_Some_2 copy j ltac:(lia)) as [cj Hcj].
  exists ci, cj. unfold swap. by rewrite Hci, Hcj.
Qed.

Lemma shuffle_loop_perm {T} (i : nat) (copy : list T) (w : World) :
  (shuffle_loop i copy w).1 ≡ₚ copy.
Proof.
  revert copy w. induction i as [|i IH]; intros copy w; [done|].
  cbn [shuffle_loop]. unfold bind, Math_random.
  rewrite IH. apply swap_perm.
Qed.

(** The shuffle leaves the identifier oracle alone. *)
Lemma shuffle_loop_uuid {T} (i : nat) (copy : list T) (w : World) :
  uuid_count (shuffle_loop i copy w).2 = uuid_count w
  ∧ uuid_source (shuffle_loop i copy w).2 = uuid_source w.
Proof.
  revert copy w. induction i as [|i IH]; intros copy w; [done|].
  cbn [shuffle_loop]. unfold bind, Math_random.
  destruct (IH (swap (S i) (random_index (random_source w (random_count w)) (S i)) copy)
               (mkWorld (uuid_count w) (uuid_source w) (S (random_count w))
                        (random_source w))) as [H1 H2].
  by rewrite H1, H2.
Qed.

Lemma shuffle_perm {T} (array : list T) (w : World) : (shuffle array w).1 ≡ₚ array.
Proof. apply shuffle_loop_perm. Qed.

(** One call of [uuid()]: one identifier and one random number are used. *)
Lemma uuid_eq (w : World) :
  uuid w = (uuid_source w (uuid_count w),
            mkWorld (S (uuid_count w)) (uuid_source w)
                    (S (random_count w)) (random_source w)).
Proof. reflexivity. Qed.

Lemma textToCards_spec (vocab : list Vocab) (w : World) :
  textToCards vocab w =
    (cards_from (uuid_source w) (uuid_count w) vocab,
     mkWorld (uuid_count w + 2 * length vocab) (uuid_source w)
             (random_count w + 2 * length vocab) (random_source w)).
Proof.
  revert w. induction vocab as [|v rest IH]; intros [c src rc rs].
  - cbn. do 2 f_equal; lia.
  - cbn [textToCards]. unfold bind at 1 2 3. rewrite !uuid_eq.
    cbn [uuid_count uuid_source random_count random_source].
    rewrite IH. cbn. do 2 f_equal; lia.
Qed.

Lemma cards_from_length src c vocab : length (cards_from src c vocab) = length vocab.
Proof. revert c. induction vocab as [|v rest IH]; intros c; simpl; [done|]. by rewrite IH. Qed.

End DeckFacts.

(** ** The practice queue *)

Module QueueFacts.

Lemma next_cards (r s : Trainer) : cards (next r s) = cards s.
Proof. reflexivity. Qed.

Lemma next_idx (r s : Trainer) :
  idx (next r s) = Nat.min (idx s + 1) (length (cards r)).
Proof. reflexivity. Qed.


Lemma current_Some_lt (s : Trainer) (c : Card) :
  current s = Some c → idx s < length (cards s).
Proof. unfold current. apply lookup_lt_Some. Qed.

Lemma current_None_ge (s : Trainer) :
  current s = None ↔ length (cards s) ≤ idx s.
Proof. unfold current. apply lookup_ge_None. Qed.

Lemma exhausted_true (s : Trainer) : exhausted s = true ↔ current s = None.
Proof. unfold exhausted. destruct (current s); split; congruence. Qed.

Lemma splice_in_within {T} (start : nat) (item : T) (copy : list T) :
  start ≤ length copy →
  splice_in start item copy = take start copy ++ item :: drop start copy.
Proof. intros H. unfold splice_in. by rewrite Nat.min_l. Qed.

(** The queue after the updater of [onIncorrect]. *)
Lemma reinsert_eq (r : Trainer) (short atEnd : Card) (prev : list Card) :
  let p := Nat.min (idx r + 4) (length prev) in
  reinsert r short atEnd prev = take p prev ++ short :: drop p prev ++ [atEnd].
Proof.
  intros p. unfold reinsert. rewrite splice_in_within by lia.
  fold p. by rewrite <- app_assoc.
Qed.

Lemma reinsert_length (r : Trainer) (short atEnd : Card) (prev : list Card) :
  length (reinsert r short atEnd prev) = length prev + 2.
Proof.
  rewrite reinsert_eq. cbv zeta.
  rewrite length_app, length_cons, length_app, length_take, length_drop.
  simpl. lia.
Qed.

(** [onIncorrect] without the monad. *)
Lemma onIncorrect_eq (r s : Trainer) (w : World) :
  let short := clone_short (cards r !! idx r) (uuid_source w (uuid_count w)) in
  let atEnd := clone_end (cards r !! idx r) (uuid_source w (S (uuid_count w))) in
  onIncorrect r s w =
    (mkTrainer (reinsert r short atEnd (cards s))
               (Nat.min (idx s + 1) (length (cards r)))
               false
               (clearSignal s + 1 + 1),
     mkWorld (S (S (uuid_count w))) (uuid_source w)
             (S (S (random_count w))) (random_source w)).
Proof. reflexivity. Qed.

Lemma loadCards_eq (vocab : list Vocab) (s : Trainer) (w : World) :
  loadCards vocab s w =
    let made := cards_from (uuid_source w) (uuid_count w) vocab in
    let w1 := mkWorld (uuid_count w + 2 * length vocab) (uuid_source w)
                      (random_count w + 2 * length vocab) (random_source w) in
    (mkTrainer (shuffle made w1).1 0 false 0, (shuffle made w1).2).
Proof.
  unfold loadCards, bind. rewrite DeckFacts.textToCards_spec.
  cbv zeta. by destruct (shuffle _ _).
Qed.

Lemma loadCards_perm (vocab : list Vocab) (s : Trainer) (w : World) :
  cards (loadCards vocab s w).1
  ≡ₚ cards_from (uuid_source w) (uuid_count w) vocab.
Proof. rewrite loadCards_eq. cbn. apply DeckFacts.shuffle_perm. Qed.

Lemma loadCards_length (vocab : list Vocab) (s : Trainer) (w : World) :
  length (cards (loadCards vocab s w).1) = length vocab.
Proof.
  rewrite (Permutation_length (loadCards_perm vocab s w)).
  apply DeckFacts.cards_from_length.
Qed.

Lemma loadCards_idx (vocab : list Vocab) (s : Trainer) (w : World) :
  idx (loadCards vocab s w).1 = 0.
Proof. by rewrite loadCards_eq. Qed.

Lemma cards_from_records src c vocab :
  map record_of (cards_from src c vocab) = map Some vocab.
Proof.
  revert c. induction vocab as [|[h p e] rest IH]; intros c; [done|].
  cbn. by rewrite IH.
Qed.

Lemma cards_from_baseIds src c vocab :
  map baseId (cards_from src c vocab)
  = map (λ n, Some (src (c + 2 * n + 1))) (seq 0 (length vocab)).
Proof.
  revert c. induction vocab as [|v rest IH]; intros c; [done|].
  cbn [cards_from map length seq baseId]. f_equal.
  - f_equal. f_equal. lia.
  - rewrite IH, <- seq_shift, map_map. apply map_ext. intros n.
    f_equal. f_equal. lia.
Qed.

End QueueFacts.

(** ** The rendered page *)

Module PageFacts.
Import QueueFacts.

Section Page.

Variable vocab : list Vocab.

Lemma reconcile_consistent (a : App) (t : Trainer) (w : World) :
  consistent a → idx t ≤ length (cards t) → consistent (rerender a t w).
Proof.
  intros [_ Hs] Ht. split; [exact Ht|].
  unfold rerender, reconcile. cbn [trainer surface].
  destruct (current t) as [c|] eqn:Hc; [|done].
  destruct (surface a) as [m|].
  - destruct Hs as (_ & Hslot & Hinks).
    case_decide; cbn; (split; [eauto|]); [done|].
    split; [done|]. by rewrite length_map.
  - cbn. split; [eauto|]. split; [lia | done].
Qed.

Lemma on_surface_consistent (f : Surface.MultiCanvas → Surface.MultiCanvas) (a : App) :
  (∀ m, Surface.slot m < 4 → length (Surface.inks m) = 4 →
        Surface.slot (f m) < 4 ∧ length (Surface.inks (f m)) = 4) →
  consistent a → consistent (on_surface f a).
Proof.
  intros Hf [Hi Hs]. split; [exact Hi|]. cbn.
  destruct (surface a) as [m|]; cbn; [|done].
  destruct Hs as (Hc & Hslot & Hinks). split; [done|]. by apply Hf.
Qed.

Lemma goLeft_lt (s : nat) : Surface.goLeft s < 4.
Proof. unfold Surface.goLeft. apply Nat.mod_upper_bound. lia. Qed.

Lemma goRight_lt (s : nat) : Surface.goRight s < 4.
Proof. unfold Surface.goRight. apply Nat.mod_upper_bound. lia. Qed.

(** Case analysis on an event that was handled. *)
Ltac handled H :=
  unfold handle in H;
  let Hc := fresh "Hcur" in
  destruct (current (trainer _)) as [?c|] eqn:Hc in H;
  [ match type of H with
    | context [match ?e with Check => _ | _ => _ end] => destruct e
    end;
    try discriminate H;
    try (destruct (showAnswer (trainer _)) eqn:?Hshown in H; [|discriminate H])
  | match type of H with
    | context [match ?e with StartAgain => _ | _ => _ end] => destruct e
    end;
    try discriminate H ].

Lemma handle_consistent (e : Event) (a a' : App) :
  consistent a → handle vocab e a = Some a' → consistent a'.
Proof.
  intros Ha H. pose proof Ha as [Hi Hs]. handled H.
  - injection H as <-. by apply reconcile_consistent.
  - injection H as <-. apply reconcile_consistent; [done|].
    rewrite next_cards, next_idx. lia.
  - rewrite onIncorrect_eq in H. cbv zeta in H. injection H as <-.
    apply reconcile_consistent; [done|]. cbn [cards idx].
    rewrite reinsert_length. lia.
  - injection H as <-. apply on_surface_consistent; [|done].
    intros m _ Hm. split; [|done]. apply goLeft_lt.
  - injection H as <-. apply on_surface_consistent; [|done].
    intros m _ Hm. split; [|done]. apply goRight_lt.
  - injection H as <-. apply on_surface_consistent; [|done].
    intros m Hm Hk. split; [done|]. cbn. by rewrite length_alter.
  - destruct (loadCards vocab (trainer a) (world a)) as [t' w'] eqn:Hl.
    injection H as <-. apply reconcile_consistent; [done|].
    replace t' with (loadCards vocab (trainer a) (world a)).1 by by rewrite Hl.
    rewrite loadCards_idx. lia.
Qed.

Lemma start_consistent (w : World) : consistent (start vocab w).
Proof.
  unfold start. destruct (loadCards vocab first_render w) as [t w'] eqn:Hl.
  apply reconcile_consistent.
  - split; [cbn; lia | done].
  - replace t with (loadCards vocab first_render w).1 by by rewrite Hl.
    rewrite loadCards_idx. lia.
Qed.

Lemma run_consistent (es : list Event) (a a' : App) :
  consistent a → run vocab es a = Some a' → consistent a'.
Proof.
  revert a. induction es as [|e es IH]; intros a Ha H; cbn in H.
  - by injection H as <-.
  - destruct (handle vocab e a) as [a1|] eqn:He; [|discriminate H].
    eapply IH; [|exact H]. by eapply handle_consistent.
Qed.

Lemma reachable_consistent (w : World) (es : list Event) (a : App) :
  run vocab es (start vocab w) = Some a → consistent a.
Proof. apply run_consistent, start_consistent. Qed.

(** On a consistent page the session is finished exactly when the
    cursor equals the length. *)
Lemma exhausted_iff (a : App) :
  consistent a →
  exhausted (trainer a) = true ↔ idx (trainer a) = length (cards (trainer a)).
Proof.
  intros [Hi _]. rewrite exhausted_true, current_None_ge. lia.
Qed.

(** The finished page has one control. *)
Lemma exhausted_only_restart (e : Event) (a a' : App) :
  exhausted (trainer a) = true → handle vocab e a = Some a' → e = StartAgain.
Proof.
  intros Hx H. apply exhausted_true in Hx. unfold handle in H.
  rewrite Hx in H. by destruct e.
Qed.

Lemma gradings_cons (e : Event) (es : list Event) :
  gradings (e :: es) = (if is_grading e then 1 else 0) + gradings es.
Proof.
  unfold gradings. rewrite filter_cons.
  destruct (is_grading e); case_decide; try done. 
Qed.

Lemma incorrects_cons (e : Event) (es : list Event) :
  incorrects (e :: es) = (if is_incorrect e then 1 else 0) + incorrects es.
Proof.
  unfold incorrects. rewrite filter_cons.
  destruct (is_incorrect e); case_decide; try done.
Qed.

(** What one event other than a restart does to cursor and length. *)
Lemma handle_progress (e : Event) (a a' : App) :
  e ≠ StartAgain → handle vocab e a = Some a' →
  idx (trainer a') = idx (trainer a) + (if is_grading e then 1 else 0)
  ∧ length (cards (trainer a'))
    = length (cards (trainer a)) + 2 * (if is_incorrect e then 1 else 0).
Proof.
  intros Hne H. handled H; try done.
  - injection H as <-. cbn. lia.
  - injection H as <-. cbn [rerender trainer is_grading is_incorrect].
    rewrite next_cards, next_idx. apply current_Some_lt in Hcur. lia.
  - rewrite onIncorrect_eq in H. cbv zeta in H. injection H as <-.
    cbn [rerender trainer cards idx is_grading is_incorrect].
    rewrite reinsert_length. apply current_Some_lt in Hcur. lia.
  - injection H as <-. cbn. lia.
  - injection H as <-. cbn. lia.
  - injection H as <-. cbn. lia.
Qed.

Lemma run_progress (es : list Event) (a a' : App) :
  StartAgain ∉ es → run vocab es a = Some a' →
  idx (trainer a') = idx (trainer a) + gradings es
  ∧ length (cards (trainer a'))
    = length (cards (trainer a)) + 2 * incorrects es.
Proof.
  revert a. induction es as [|e es IH]; intros a Hno H; cbn in H.
  - injection H as <-. cbn. lia.
  - destruct (handle vocab e a) as [a1|] eqn:He; [|discriminate H].
    apply not_elem_of_cons in Hno as [Hne Hno].
    destruct (handle_progress e a a1 (not_eq_sym Hne) He) as [H1 H2].
    destruct (IH a1 Hno H) as [H3 H4].
    rewrite gradings_cons, incorrects_cons. lia.
Qed.

Lemma start_trainer (w : World) :
  idx (trainer (start vocab w)) = 0
  ∧ length (cards (trainer (start vocab w))) = length vocab.
Proof.
  unfold start. destruct (loadCards vocab first_render w) as [t w'] eqn:Hl.
  cbn [rerender trainer].
  replace t with (loadCards vocab first_render w).1 by by rewrite Hl.
  by rewrite loadCards_idx, loadCards_length.
Qed.

(** Checking and grading "correct" is possible until the queue is used
    up, and uses it up in as many gradings as cards are left. *)
Lemma all_correct_runs (n : nat) (a : App) :
  length (cards (trainer a)) = idx (trainer a) + n →
  ∃ a', run vocab (all_correct n) a = Some a'
        ∧ cards (trainer a') = cards (trainer a)
        ∧ idx (trainer a') = length (cards (trainer a)).
Proof.
  revert a. induction n as [|n IH]; intros a Hlen.
  - exists a. cbn. split; [done|]. split; [done | lia].
  - assert (Hlt : idx (trainer a) < length (cards (trainer a))) by lia.
    destruct (lookup_lt_is_Some_2 _ _ Hlt) as [c Hc].
    change (all_correct (S n)) with (Check :: Correct :: all_correct n).
    cbn [run]. unfold handle at 1. unfold current at 1. rewrite Hc.
    set (a1 := rerender a (onCheck (trainer a)) (world a)).
    unfold handle at 1. unfold current at 1.
    change (cards (trainer a1) !! idx (trainer a1)) with (cards (trainer a) !! idx (trainer a)).
    rewrite Hc. change (showAnswer (trainer a1)) with true. cbv iota.
    set (a2 := rerender a1 (next (trainer a1) (trainer a1)) (world a1)).
    destruct (IH a2) as (a' & Hrun & Hcards & Hidx).
    + change (cards (trainer a2)) with (cards (trainer a)).
      change (idx (trainer a2)) with (Nat.min (idx (trainer a) + 1) (length (cards (trainer a)))).
      lia.
    + exists a'. split; [exact Hrun|]. by split.
Qed.

Lemma all_correct_counts (k : nat) :
  gradings (all_correct k) = k ∧ incorrects (all_correct k) = 0
  ∧ StartAgain ∉ all_correct k.
Proof.
  induction k as [|k (IH1 & IH2 & IH3)].
  - split; [done|]. split; [done|]. apply not_elem_of_nil.
  - change (all_correct (S k)) with (Check :: Correct :: all_correct k).
    rewrite !gradings_cons, !incorrects_cons, IH1, IH2. cbn.
    split; [done|]. split; [done|].
    rewrite !not_elem_of_cons. by repeat split.
Qed.

End Page.

End PageFacts.

(** ** splitHanziToChars for any number as max *)

Module JsFacts.
Import Segment.









End JsFacts.


(** * The claims *)

Module Claims.
Import QueueFacts PageFacts.

(** ** C1: an incorrect grading adds two items and moves on by one *)

(** C1.  In every state with a current card ([idx] below the length),
    [onIncorrect] makes the queue exactly 2 longer and the position
    exactly 1 larger. *)
Theorem onIncorrect_length_and_position (s : Trainer) (w : World) :
  idx s < length (cards s) →
  length (cards (onIncorrect s s w).1) = length (cards s) + 2
  ∧ idx (onIncorrect s s w).1 = idx s + 1.
Proof.
  intros Hlt. rewrite onIncorrect_eq. cbn [fst cards idx].
  rewrite reinsert_length. lia.
Qed.

Lemma onIncorrect_length_and_position_witness :
  idx (mkTrainer [Samples.a_card] 0 true 0)
    < length (cards (mkTrainer [Samples.a_card] 0 true 0))
  ∧ (length (cards (onIncorrect (mkTrainer [Samples.a_card] 0 true 0)
                                (mkTrainer [Samples.a_card] 0 true 0)
                                Samples.host_a).1) = 1 + 2
     ∧ idx (onIncorrect (mkTrainer [Samples.a_card] 0 true 0)
                        (mkTrainer [Samples.a_card] 0 true 0)
                        Samples.host_a).1 = 0 + 1).
Proof.
  split.
  - cbn. lia.
  - apply (onIncorrect_length_and_position
             (mkTrainer [Samples.a_card] 0 true 0) Samples.host_a).
    cbn. lia.
Defined.

(** ** C2: where the two clones go *)

(** C2.  In every state with a current card, [onIncorrect] puts the clone
    flagged [scheduledShort] at index [min (idx + 4) length], the length
    being that of the queue before anything is added, and puts the clone
    flagged [scheduledEnd] behind everything else, so that it is the last
    element and the short clone comes before it. *)
Theorem onIncorrect_placement (s : Trainer) (w : World) :
  idx s < length (cards s) →
  let p := Nat.min (idx s + 4) (length (cards s)) in
  let short := clone_short (current s) (uuid_source w (uuid_count w)) in
  let atEnd := clone_end (current s) (uuid_source w (S (uuid_count w))) in
  let after := cards (onIncorrect s s w).1 in
  after = take p (cards s) ++ short :: drop p (cards s) ++ [atEnd]
  ∧ after !! p = Some short
  ∧ list.last after = Some atEnd
  ∧ p < length after - 1
  ∧ scheduledShort short = Some true
  ∧ scheduledEnd atEnd = Some true
  ∧ ∃ c, current s = Some c
         ∧ record_of short = record_of c ∧ baseId short = baseId c
         ∧ record_of atEnd = record_of c ∧ baseId atEnd = baseId c.
Proof.
  intros Hlt p short atEnd after.
  assert (Hafter : after = take p (cards s) ++ short :: drop p (cards s) ++ [atEnd]).
  { unfold after. rewrite onIncorrect_eq. cbn [fst cards]. apply reinsert_eq. }
  assert (Hp : length (take p (cards s)) = p).
  { rewrite length_take. unfold p. lia. }
  split; [exact Hafter|]. split.
  { rewrite Hafter. rewrite lookup_app_r by lia.
    by rewrite Hp, Nat.sub_diag. }
  split.
  { rewrite Hafter.
    change (short :: drop p (cards s) ++ [atEnd])
      with ((short :: drop p (cards s)) ++ [atEnd]).
    rewrite app_assoc. apply last_snoc. }
  split.
  { rewrite Hafter, length_app, length_cons, length_app, Hp. simpl. lia. }
  split; [done|]. split; [done|].
  destruct (lookup_lt_is_Some_2 _ _ Hlt) as [c Hc].
  exists c. unfold short, atEnd, current. rewrite Hc.
  split; [done|]. by destruct c.
Qed.

Lemma onIncorrect_placement_witness :
  idx (mkTrainer [Samples.a_card] 0 true 0)
    < length (cards (mkTrainer [Samples.a_card] 0 true 0))
  ∧ cards (onIncorrect (mkTrainer [Samples.a_card] 0 true 0)
                       (mkTrainer [Samples.a_card] 0 true 0)
                       Samples.host_a).1 !! 1
    = Some (clone_short (Some Samples.a_card) [0x61; 0]%N).
Proof.
  split.
  - cbn. lia.
  - apply (onIncorrect_placement
             (mkTrainer [Samples.a_card] 0 true 0) Samples.host_a).
    cbn. lia.
Defined.

(** ** C5: a correct grading only moves the cursor *)

(** C5.  In every state with a current card, [next] makes the position
    exactly 1 larger and returns the very same queue. *)
Theorem next_moves_cursor_only (s : Trainer) :
  idx s < length (cards s) →
  idx (next s s) = idx s + 1 ∧ cards (next s s) = cards s.
Proof.
  intros Hlt. rewrite next_idx, next_cards. split; [lia | done].
Qed.

Lemma next_moves_cursor_only_witness :
  idx (mkTrainer [Samples.a_card; Samples.a_card] 0 true 0)
    < length (cards (mkTrainer [Samples.a_card; Samples.a_card] 0 true 0))
  ∧ (idx (next (mkTrainer [Samples.a_card; Samples.a_card] 0 true 0)
               (mkTrainer [Samples.a_card; Samples.a_card] 0 true 0)) = 0 + 1
     ∧ cards (next (mkTrainer [Samples.a_card; Samples.a_card] 0 true 0)
                   (mkTrainer [Samples.a_card; Samples.a_card] 0 true 0))
       = [Samples.a_card; Samples.a_card]).
Proof.
  split.
  - cbn. lia.
  - apply (next_moves_cursor_only
             (mkTrainer [Samples.a_card; Samples.a_card] 0 true 0)).
    cbn. lia.
Defined.

(** ** C10: the slot index goes round in four *)

(** C10.  For a surface whose slot is one of 0, 1, 2, 3: the left arrow
    sets it to [(slot + 3) mod 4], the right arrow to [(slot + 1) mod 4];
    both stay among 0..3 and leave the ink alone, each undoes the other,
    left from 0 gives 3 and right from 3 gives 0. *)
Theorem navigation_wraps (m : Surface.MultiCanvas) :
  Surface.slot m < 4 →
  let l := Surface.setSlot Surface.goLeft m in
  let r := Surface.setSlot Surface.goRight m in
  Surface.slot l = (Surface.slot m + 3) mod 4
  ∧ Surface.slot r = (Surface.slot m + 1) mod 4
  ∧ Surface.slot l < 4 ∧ Surface.slot r < 4
  ∧ Surface.inks l = Surface.inks m ∧ Surface.inks r = Surface.inks m
  ∧ Surface.goRight (Surface.slot l) = Surface.slot m
  ∧ Surface.goLeft (Surface.slot r) = Surface.slot m
  ∧ Surface.slot l = match Surface.slot m with 0 => 3 | S i => i end
  ∧ Surface.slot r = match Surface.slot m with 3 => 0 | i => S i end.
Proof.
  intros Hlt. destruct m as [i k]. cbn [Surface.slot] in Hlt.
  assert (Hi : i = 0 ∨ i = 1 ∨ i = 2 ∨ i = 3) by lia.
  destruct Hi as [-> | [-> | [-> | ->]]]; cbn; repeat split; lia.
Qed.

Lemma navigation_wraps_witness :
  Surface.slot Surface.mounted < 4
  ∧ Surface.slot (Surface.setSlot Surface.goLeft Surface.mounted) = 3.
Proof.
  split.
  - cbn. lia.
  - apply (navigation_wraps Surface.mounted). cbn. lia.
Defined.

(** ** C4: the floor of the sizer *)

(** C4.  The claim is that the result is never below 12.  In a box of 45
    by 45 with padding 16 the first size is 13; for the two characters 你好
    in a font one em wide per character the width 26 exceeds the 13
    available, the loop takes 2 off, and the result is 11. *)
Theorem fitFontSize_below_floor :
  Sizer.fitFontSize Samples.one_em_each Samples.ni_hao 45 45 16 = 11%Z
  ∧ Sizer.initial_size 45 45 16 = 13%Z
  ∧ Sizer.overflows Samples.one_em_each Samples.ni_hao 45 45 16 13 = true
  ∧ Sizer.overflows Samples.one_em_each Samples.ni_hao 45 45 16 11 = false.
Proof. repeat split; vm_compute; reflexivity. Qed.

(** ** C7: the segmenter *)


(** For 你好 and [max] = 2.5 it returns three units. *)
Example split_fractional_max :
  Js.splitHanziToChars None Samples.ni_hao (Js.Finite (5 # 2))
  = Some [[0x4F60]; [0x597D]; []]%N.
Proof. reflexivity. Qed.



(** The three assertions of the source on the segmenter (lines 460-465),
    on a host without [Intl.Segmenter]. *)
Example split_two_chars_padded :
  Segment.splitHanziToChars None Samples.ni_hao 4
  = [[0x4F60]; [0x597D]; []; []]%N.
Proof. reflexivity. Qed.

Example split_four_chars :
  Segment.splitHanziToChars None Samples.han_ri_cidian 4 !! 3 = Some [0x5178%N].
Proof. reflexivity. Qed.

Example split_ignores_spaces :
  Segment.splitHanziToChars None Samples.zhong_guo_spaced 4
  = [[0x4E2D]; [0x56FD]; []; []]%N.
Proof. reflexivity. Qed.

(** ** C6: the finished session *)

(** C6, as stated, fails: on the page of the first render (no cards,
    position 0) [onIncorrect] adds two cards. *)
Lemma exhausted_onIncorrect_grows : ¬ Stated.exhausted_gradings_are_noops.
Proof.
  intros H.
  destruct (H first_render Samples.host_a eq_refl) as [_ [Hcards _]].
  vm_compute in Hcards. discriminate Hcards.
Qed.

(** C6, amended.  When the position equals the length, [next] leaves
    queue and position as they are, and the page offers neither grading
    button, so that no grading is handled there. *)
Theorem exhausted_next_noop_no_grading (vocab : list Vocab) (a : App) :
  idx (trainer a) = length (cards (trainer a)) →
  cards (next (trainer a) (trainer a)) = cards (trainer a)
  ∧ idx (next (trainer a) (trainer a)) = idx (trainer a)
  ∧ handle vocab Correct a = None
  ∧ handle vocab Fout a = None.
Proof.
  intros Hx. rewrite next_cards, next_idx.
  assert (Hcur : current (trainer a) = None) by (apply current_None_ge; lia).
  unfold handle. rewrite Hcur. repeat split; lia.
Qed.

Lemma exhausted_next_noop_no_grading_witness :
  idx (trainer (mkApp first_render None Samples.host_a))
    = length (cards (trainer (mkApp first_render None Samples.host_a)))
  ∧ handle Samples.three_words Fout (mkApp first_render None Samples.host_a) = None.
Proof.
  split.
  - reflexivity.
  - apply (exhausted_next_noop_no_grading Samples.three_words
             (mkApp first_render None Samples.host_a)).
    reflexivity.
Defined.

(** ** C9: restart *)

(** C9, as stated, fails: on one host, a restart and the restart after it,
    on the same three records, give different multisets of [baseId]. *)
Lemma restart_source_ids_differ :
  ¬ Stated.restart_same_source_ids Samples.three_words.
Proof.
  intros H.
  pose (first := loadCards Samples.three_words first_render Samples.host_a).
  specialize (H first_render Samples.host_a first.1 first.2).
  assert (Hin : Some [0x61; 1]%N
                ∈ map baseId (cards (loadCards Samples.three_words first.1 first.2).1)).
  { rewrite <- H. vm_compute. apply list_elem_of_In. vm_compute. tauto. }
  vm_compute in Hin. apply list_elem_of_In in Hin. cbn in Hin.
  intuition discriminate.
Qed.

(** C9, amended.  For every list of records, [loadCards] gives position 0
    and a queue with one card per record: the records shown by the cards
    are a permutation of the given ones, the same multiset at every call.
    The [baseId]s are the identifiers drawn at that call. *)
Theorem loadCards_one_card_per_record (vocab : list Vocab) (s : Trainer) (w : World) :
  let t := (loadCards vocab s w).1 in
  idx t = 0
  ∧ length (cards t) = length vocab
  ∧ map record_of (cards t) ≡ₚ map Some vocab
  ∧ (∀ s' w', map record_of (cards (loadCards vocab s' w').1)
              ≡ₚ map record_of (cards t))
  ∧ map baseId (cards t)
    ≡ₚ map (λ n, Some (uuid_source w (uuid_count w + 2 * n + 1)))
           (seq 0 (length vocab)).
Proof.
  intros t.
  assert (Hrec : ∀ s' w', map record_of (cards (loadCards vocab s' w').1)
                          ≡ₚ map Some vocab).
  { intros s' w'. rewrite (loadCards_perm vocab s' w').
    by rewrite cards_from_records. }
  split; [apply loadCards_idx|]. split; [apply loadCards_length|].
  split; [apply Hrec|]. split.
  - intros s' w'. unfold t. by rewrite !Hrec.
  - unfold t. rewrite (loadCards_perm vocab s w).
    by rewrite cards_from_baseIds.
Qed.

(** ** C3: what a card change does to the surface *)




(** ** C8: when the session is finished *)

(** C8.  On a page reached from the start of a session of [k] records
    without a restart: the session is finished exactly when the position
    equals the length, which is when the number of gradings equals [k]
    plus twice the number of incorrect ones; so with correct gradings only
    it is finished after exactly [k] gradings, and such a run exists, and
    with an incorrect grading it is finished only after more than [k].
    The finished page handles no event but the restart. *)
Theorem exhaustion_after_gradings (vocab : list Vocab) (w : World)
    (es : list Event) (a : App) :
  run vocab es (start vocab w) = Some a →
  StartAgain ∉ es →
  let k := length vocab in
  let finished := exhausted (trainer a) = true in
  (finished ↔ idx (trainer a) = length (cards (trainer a)))
  ∧ (finished ↔ gradings es = k + 2 * incorrects es)
  ∧ (incorrects es = 0 → (finished ↔ gradings es = k))
  ∧ (0 < incorrects es → finished → k < gradings es)
  ∧ (finished → ∀ e a', handle vocab e a = Some a' → e = StartAgain)
  ∧ (∃ a_done, run vocab (all_correct k) (start vocab w) = Some a_done
               ∧ exhausted (trainer a_done) = true
               ∧ gradings (all_correct k) = k
               ∧ incorrects (all_correct k) = 0).
Proof.
  intros Hrun Hno k finished.
  pose proof (reachable_consistent vocab w es a Hrun) as Hcons.
  pose proof (exhausted_iff a Hcons) as Hdone.
  destruct (run_progress vocab es _ a Hno Hrun) as [Hidx Hlen].
  destruct (start_trainer vocab w) as [H0 Hk].
  rewrite H0 in Hidx. rewrite Hk in Hlen. fold k in Hlen.
  assert (Hcount : finished ↔ gradings es = k + 2 * incorrects es).
  { unfold finished. rewrite Hdone. lia. }
  split; [exact Hdone|]. split; [exact Hcount|].
  split; [intros Hz; rewrite Hcount; lia|].
  split; [intros Hpos Hd; apply Hcount in Hd; lia|].
  split.
  { intros Hd e a' He. by eapply exhausted_only_restart. }
  destruct (all_correct_runs vocab k (start vocab w)) as (a_done & Hr & Hc & Hi).
  { rewrite H0, Hk. done. }
  exists a_done. split; [exact Hr|].
  destruct (all_correct_counts k) as (Hg & Hinc & Hnr).
  split; [|by split].
  apply (exhausted_iff a_done).
  - by eapply reachable_consistent.
  - by rewrite Hi, Hc.
Qed.

Lemma exhaustion_after_gradings_witness :
  ∃ a,
    run Samples.three_words [Check; Fout; Check; Correct]
        (start Samples.three_words Samples.host_a) = Some a
    ∧ (StartAgain ∉ [Check; Fout; Check; Correct])
    ∧ (exhausted (trainer a) = true
       ↔ idx (trainer a) = length (cards (trainer a))).
Proof.
  eexists.
  split; [vm_compute; reflexivity|].
  split; [rewrite !not_elem_of_cons; repeat split; try discriminate;
          apply not_elem_of_nil|].
  eapply (exhaustion_after_gradings Samples.three_words Samples.host_a
            [Check; Fout; Check; Correct] _).
  - vm_compute. reflexivity.
  - rewrite !not_elem_of_cons. repeat split; try discriminate.
    apply not_elem_of_nil.
Defined.

End Claims.

(** * Further properties of the code *)

(** ** The vocabulary text *)

Module CsvFacts.
Import Csv.

Lemma split_on_nonempty (sep : N) (s : jsstring) : split_on sep s ≠ [].
Proof.
  destruct s as [|c rest]; cbn; [done|].
  destruct (c =? sep)%N; [done|]. by destruct (split_on sep rest).
Qed.

Lemma split_on_app_sep (sep : N) (h rest : jsstring) :
  sep ∉ h → split_on sep (h ++ sep :: rest) = h :: split_on sep rest.
Proof.
  induction h as [|c h IH]; intros Hno; cbn.
  - by rewrite N.eqb_refl.
  - apply not_elem_of_cons in Hno as [Hne Hno].
    destruct (N.eqb_spec c sep) as [->|_]; [done|].
    by rewrite IH.
Qed.

Lemma join_cons (sep : N) (part : jsstring) (more : list jsstring) :
  more ≠ [] → join sep (part :: more) = part ++ sep :: join sep more.
Proof. by destruct more. Qed.

Lemma join_cons_to_first (sep c : N) (pieces : list jsstring) :
  pieces ≠ [] → join sep (cons_to_first c pieces) = c :: join sep pieces.
Proof.
  destruct pieces as [|p more]; [done|]. intros _.
  destruct more; reflexivity.
Qed.

(** Splitting and joining with the same separator gives the text back. *)
Lemma join_split_on (sep : N) (s : jsstring) : join sep (split_on sep s) = s.
Proof.
  induction s as [|c rest IH]; [done|]. cbn [split_on].
  destruct (N.eqb_spec c sep) as [->|_].
  - rewrite join_cons by apply split_on_nonempty. by rewrite IH.
  - rewrite join_cons_to_first by apply split_on_nonempty. by rewrite IH.
Qed.

Lemma split_on_pieces (sep : N) (s : jsstring) :
  Forall (λ piece, sep ∉ piece) (split_on sep s).
Proof.
  induction s as [|c rest IH]; cbn [split_on].
  - constructor; [apply not_elem_of_nil | constructor].
  - destruct (N.eqb_spec c sep) as [->|Hne].
    + constructor; [apply not_elem_of_nil | exact IH].
    + destruct (split_on sep rest) as [|p more]; cbn.
      * constructor; [|constructor]. rewrite not_elem_of_cons. split; [done|].
        apply not_elem_of_nil.
      * inversion IH as [|? ? Hp Hmore]; subst. constructor; [|done].
        rewrite not_elem_of_cons. by split.
Qed.

Lemma split_lines_nonempty (text : jsstring) : split_lines text ≠ [].
Proof.
  destruct text as [|c rest]; cbn; [done|].
  destruct (c =? line_feed)%N; [done|].
  destruct rest as [|d rest']; [done|].
  destruct ((c =? carriage_return)%N && (d =? line_feed)%N); [done|].
  by destruct (split_lines (d :: rest')).
Qed.

Lemma split_lines_cons2 (c d : N) (rest : jsstring) :
  split_lines (c :: d :: rest) =
    if (c =? line_feed)%N then [] :: split_lines (d :: rest)
    else if (c =? carriage_return)%N && (d =? line_feed)%N
         then [] :: split_lines rest
         else cons_to_first c (split_lines (d :: rest)).
Proof. reflexivity. Qed.

(** A text without line feed is one line. *)
Lemma split_lines_one (l : jsstring) : line_feed ∉ l → split_lines l = [l].
Proof.
  induction l as [|c l IH]; intros Hno; [done|].
  apply not_elem_of_cons in Hno as [Hc Hl].
  destruct l as [|d l'].
  - cbn. by destruct (N.eqb_spec c line_feed).
  - rewrite split_lines_cons2.
    destruct (N.eqb_spec c line_feed) as [?|_]; [done|].
    apply not_elem_of_cons in Hl as [Hd Hl'].
    destruct (N.eqb_spec d line_feed) as [?|_]; [done|].
    rewrite andb_false_r, IH; [done|]. rewrite not_elem_of_cons. by split.
Qed.

(** A line feed ends the line before it, when that line has no line feed
    and does not end in a carriage return. *)
Lemma split_lines_app (l rest : jsstring) :
  line_feed ∉ l → list.last l ≠ Some carriage_return →
  split_lines (l ++ line_feed :: rest) = l :: split_lines rest.
Proof.
  induction l as [|c l IH]; intros Hno Hlast; [done|].
  apply not_elem_of_cons in Hno as [Hc Hl].
  destruct l as [|d l'].
  - cbn [app]. rewrite split_lines_cons2.
    destruct (N.eqb_spec c line_feed) as [?|_]; [done|].
    destruct (N.eqb_spec c carriage_return) as [->|_]; [done|].
    cbn [andb]. change (split_lines (line_feed :: rest)) with ([] :: split_lines rest).
    done.
  - change ((c :: d :: l') ++ line_feed :: rest)
      with (c :: d :: (l' ++ line_feed :: rest)).
    rewrite split_lines_cons2.
    destruct (N.eqb_spec c line_feed) as [?|_]; [done|].
    apply not_elem_of_cons in Hl as [Hd Hl'].
    destruct (N.eqb_spec d line_feed) as [?|_]; [done|].
    rewrite andb_false_r.
    change (d :: l' ++ line_feed :: rest) with ((d :: l') ++ line_feed :: rest).
    rewrite IH; [done | | done]. rewrite not_elem_of_cons. by split.
Qed.

(** Every code unit of a line is one of the text. *)
Lemma split_lines_elem (text : jsstring) :
  Forall (λ l, ∀ x, x ∈ l → x ∈ text) (split_lines text).
Proof.
  remember (length text) as n eqn:Hn. revert text Hn.
  induction (lt_wf n) as [n _ IH]. intros text Hn.
  assert (Hcons : ∀ c rest,
             Forall (λ l, ∀ x, x ∈ l → x ∈ rest) (split_lines rest) →
             Forall (λ l, ∀ x, x ∈ l → x ∈ c :: rest)
                    (cons_to_first c (split_lines rest))).
  { intros c rest H. destruct (split_lines rest) as [|p more]; cbn.
    - constructor; [|constructor]. intros x Hx. apply list_elem_of_singleton in Hx.
      subst. left.
    - inversion H as [|? ? Hp Hmore]; subst. constructor.
      + intros x [->|Hx]%elem_of_cons; [left | right; by apply Hp].
      + eapply list.Forall_impl; [exact Hmore|]. intros l Hl x Hx. right. by apply Hl. }
  destruct text as [|c [|d rest]].
  - constructor; [|constructor]. by intros x Hx%elem_of_nil.
  - cbn. destruct (c =? line_feed)%N.
    + constructor; [by intros x Hx%elem_of_nil|]. constructor; [|constructor].
      by intros x Hx%elem_of_nil.
    + constructor; [done | constructor].
  - rewrite split_lines_cons2.
    assert (H1 : Forall (λ l, ∀ x, x ∈ l → x ∈ d :: rest) (split_lines (d :: rest))).
    { eapply IH; [|reflexivity]. subst n. simpl. lia. }
    assert (H2 : Forall (λ l, ∀ x, x ∈ l → x ∈ rest) (split_lines rest)).
    { eapply IH; [|reflexivity]. subst n. simpl. lia. }
    destruct (c =? line_feed)%N.
    + constructor; [by intros x Hx%elem_of_nil|].
      eapply list.Forall_impl; [exact H1|]. intros l Hl x Hx. right. by apply Hl.
    + destruct ((c =? carriage_return)%N && (d =? line_feed)%N).
      * constructor; [by intros x Hx%elem_of_nil|].
        eapply list.Forall_impl; [exact H2|]. intros l Hl x Hx. right. right. by apply Hl.
      * by apply Hcons.
Qed.

(** No line has a line feed. *)
Lemma split_lines_no_feed (text : jsstring) :
  Forall (λ l, line_feed ∉ l) (split_lines text).
Proof.
  remember (length text) as n eqn:Hn. revert text Hn.
  induction (lt_wf n) as [n _ IH]. intros text Hn.
  assert (Hcons : ∀ c rest, c ≠ line_feed →
             Forall (λ l, line_feed ∉ l) (split_lines rest) →
             Forall (λ l, line_feed ∉ l) (cons_to_first c (split_lines rest))).
  { intros c rest Hc H. destruct (split_lines rest) as [|p more]; cbn.
    - constructor; [|constructor]. rewrite not_elem_of_cons. split; [done|].
      apply not_elem_of_nil.
    - inversion H as [|? ? Hp Hmore]; subst. constructor; [|done].
      rewrite not_elem_of_cons. by split. }
  destruct text as [|c [|d rest]].
  - constructor; [apply not_elem_of_nil | constructor].
  - cbn. destruct (N.eqb_spec c line_feed) as [->|Hc].
    + repeat constructor; apply not_elem_of_nil.
    + constructor; [|constructor]. rewrite not_elem_of_cons. split; [done|].
      apply not_elem_of_nil.
  - rewrite split_lines_cons2.
    assert (H1 : Forall (λ l, line_feed ∉ l) (split_lines (d :: rest))).
    { eapply IH; [|reflexivity]. subst n. simpl. lia. }
    assert (H2 : Forall (λ l, line_feed ∉ l) (split_lines rest)).
    { eapply IH; [|reflexivity]. subst n. simpl. lia. }
    destruct (N.eqb_spec c line_feed) as [->|Hc].
    + constructor; [apply not_elem_of_nil | done].
    + destruct ((c =? carriage_return)%N && (d =? line_feed)%N).
      * constructor; [apply not_elem_of_nil | done].
      * by apply Hcons.
Qed.

Lemma trim_start_suffix (s : jsstring) : ∃ spaces, s = spaces ++ trim_start s
  ∧ Forall (λ c, Segment.is_space c = true) spaces.
Proof.
  induction s as [|c rest (spaces & Hs & Hsp)]; cbn.
  - by exists [].
  - destruct (Segment.is_space c) eqn:Hc.
    + exists (c :: spaces). split; [by rewrite Hs at 1 | by constructor].
    + by exists [].
Qed.

Lemma trim_start_length (s : jsstring) : length (trim_start s) ≤ length s.
Proof.
  destruct (trim_start_suffix s) as (spaces & Hs & _).
  rewrite Hs at 2. rewrite length_app. lia.
Qed.

Lemma trim_start_same_length (s : jsstring) :
  length (trim_start s) = length s → trim_start s = s.
Proof.
  destruct (trim_start_suffix s) as (spaces & Hs & _). intros Hlen.
  rewrite Hs in Hlen at 2. rewrite length_app in Hlen.
  destruct spaces; [done|]. simpl in Hlen. lia.
Qed.

Lemma trim_start_head (s : jsstring) (c : N) (rest : jsstring) :
  trim_start s = s → s = c :: rest → Segment.is_space c = false.
Proof.
  intros Hfix ->. cbn in Hfix. destruct (Segment.is_space c) eqn:Hc; [|done].
  pose proof (trim_start_length rest) as Hlen. rewrite Hfix in Hlen.
  simpl in Hlen. lia.
Qed.

(** A text that [trim] leaves alone has no white space at either end. *)
Lemma trim_fixed (s : jsstring) :
  trim s = s → trim_start s = s ∧ trim_start (reverse s) = reverse s.
Proof.
  intros Hfix. unfold trim in Hfix.
  assert (Hlen : length (trim_start s) = length s).
  { apply Nat.le_antisymm; [apply trim_start_length|].
    rewrite <- Hfix at 1. rewrite length_reverse.
    etrans; [apply trim_start_length|]. by rewrite length_reverse. }
  apply trim_start_same_length in Hlen. split; [exact Hlen|].
  rewrite Hlen in Hfix. rewrite <- Hfix at 2. by rewrite reverse_involutive.
Qed.

Lemma trim_fixed_last (s : jsstring) :
  trim s = s → list.last s ≠ Some carriage_return.
Proof.
  intros [_ Hrev]%trim_fixed Hlast.
  destruct (reverse s) as [|c rest] eqn:Hr.
  - apply (f_equal reverse) in Hr. rewrite reverse_involutive in Hr.
    subst s. discriminate Hlast.
  - pose proof (trim_start_head _ _ _ Hrev eq_refl) as Hc.
    apply (f_equal reverse) in Hr. rewrite reverse_involutive in Hr.
    rewrite Hr, reverse_cons, last_snoc in Hlast.
    injection Hlast as ->. discriminate Hc.
Qed.

(** [trim] keeps a part of the text. *)
Lemma trim_elem (s : jsstring) (x : N) : x ∈ trim s → x ∈ s.
Proof.
  unfold trim. rewrite elem_of_reverse. intros Hx.
  destruct (trim_start_suffix (reverse (trim_start s))) as (sp1 & H1 & _).
  assert (Hx1 : x ∈ reverse (trim_start s)).
  { rewrite H1. apply elem_of_app. by right. }
  rewrite elem_of_reverse in Hx1.
  destruct (trim_start_suffix s) as (sp2 & H2 & _).
  rewrite H2. apply elem_of_app. by right.
Qed.

(** A text of white space only is trimmed to nothing. *)
Lemma trim_blank (s : jsstring) :
  Forall (λ c, Segment.is_space c = true) s → trim s = [].
Proof.
  intros Hs. assert (Hstart : trim_start s = []).
  { induction Hs as [|c rest Hc _ IH]; [done|]. cbn. by rewrite Hc. }
  unfold trim. by rewrite Hstart.
Qed.

(** The fields of a line with two commas or more. *)
Lemma liteSplit_fields (h p e : jsstring) :
  comma ∉ h → comma ∉ p →
  liteSplit (h ++ comma :: p ++ comma :: e) = [h; p; e].
Proof.
  intros Hh Hp. unfold liteSplit.
  rewrite (split_on_app_sep comma h) by done.
  rewrite (split_on_app_sep comma p) by done.
  simpl. rewrite drop_0. by rewrite join_split_on.
Qed.

(** Every line is its fields with the commas put back. *)
Lemma liteSplit_parts (line : jsstring) :
  ∃ h p e, liteSplit line = [h; p; e]
           ∧ (comma ∉ h) ∧ (comma ∉ p)
           ∧ ((line = h ∧ p = [] ∧ e = [])
              ∨ (line = h ++ comma :: p ∧ e = [])
              ∨ line = h ++ comma :: p ++ comma :: e).
Proof.
  pose proof (join_split_on comma line) as Hjoin.
  pose proof (split_on_pieces comma line) as Hpieces.
  pose proof (split_on_nonempty comma line) as Hne.
  unfold liteSplit.
  destruct (split_on comma line) as [|h [|p more]]; [done| |].
  - exists h, [], []. apply list.Forall_cons in Hpieces as [Hh _].
    split; [done|]. split; [done|]. split; [apply not_elem_of_nil|]. by left.
  - exists h, p, (join comma more).
    apply list.Forall_cons in Hpieces as [Hh Hrest].
    apply list.Forall_cons in Hrest as [Hp _].
    split; [done|]. split; [done|]. split; [done|].
    destruct more as [|q more].
    + right. left. by split.
    + right. right. symmetry. exact Hjoin.
Qed.

Lemma collect_app (dataLines : list jsstring) (out : list Vocab) :
  collect dataLines out = out ++ collect dataLines [].
Proof.
  revert out. induction dataLines as [|line rest IH]; intros out; cbn [collect].
  - by rewrite app_nil_r.
  - destruct (liteSplit line !! 0) as [[|c h]|]; try apply IH.
    rewrite IH, (IH ([] ++ _)). by rewrite app_assoc.
Qed.

Lemma liteSplit_record_line (v : Vocab) :
  comma ∉ v_hanzi v → comma ∉ v_pinyin v →
  liteSplit (record_line v) = [v_hanzi v; v_pinyin v; v_english v].
Proof. intros Hh Hp. unfold record_line. by apply liteSplit_fields. Qed.

Lemma collect_record_lines (records : list Vocab) :
  Forall writable records → collect (map record_line records) [] = records.
Proof.
  induction 1 as [|v rest Hv _ IH]; [done|].
  destruct Hv as (Hne & Hh & Hp & _ & _).
  rewrite map_cons. cbn [collect].
  rewrite liteSplit_record_line by done. simpl.
  destruct v as [[|c h] p e]; [done|]. simpl.
  by rewrite collect_app, IH.
Qed.

(** The lines of a text made of lines. *)
Lemma split_lines_join (l : jsstring) (more : list jsstring) :
  Forall (λ l, (line_feed ∉ l) ∧ list.last l ≠ Some carriage_return) (l :: more) →
  split_lines (join line_feed (l :: more)) = l :: more.
Proof.
  revert l. induction more as [|l' more IH]; intros l Hall.
  - inversion Hall as [|? ? [Hl _] _]; subst. by apply split_lines_one.
  - inversion Hall as [|? ? [Hl Hlast] Hmore]; subst.
    rewrite join_cons by done. rewrite split_lines_app by done.
    by rewrite IH.
Qed.

Lemma trimmed_lines_kept (ls : list jsstring) :
  Forall (λ l, l ≠ [] ∧ (line_feed ∉ l) ∧ trim l = l) ls →
  filter (λ l, 0 < length l) (map trim ls) = ls.
Proof.
  induction 1 as [|x xs (Hne & _ & Htrim) _ IH]; [done|].
  rewrite map_cons, filter_cons, Htrim.
  destruct x; [done|]. rewrite decide_True by (simpl; lia). f_equal. exact IH.
Qed.

(** The non-empty trimmed lines of a text made of lines that are not empty,
    have no line feed and no white space at either end. *)
Lemma lines_of_join (l : jsstring) (more : list jsstring) :
  Forall (λ l, l ≠ [] ∧ (line_feed ∉ l) ∧ trim l = l) (l :: more) →
  filter (λ l, 0 < length l) (map trim (split_lines (join line_feed (l :: more))))
  = l :: more.
Proof.
  intros Hall. rewrite split_lines_join; [by apply trimmed_lines_kept|].
  eapply list.Forall_impl; [exact Hall|]. intros x (_ & Hx & Htrim).
  split; [done | by apply trim_fixed_last].
Qed.

Lemma writable_line (v : Vocab) :
  writable v → record_line v ≠ [] ∧ (line_feed ∉ record_line v)
               ∧ trim (record_line v) = record_line v.
Proof.
  intros (Hne & _ & _ & Hfeed & Htrim). split; [|done].
  unfold record_line. destruct (v_hanzi v); [done | discriminate].
Qed.

Lemma header_line_ok :
  header_line ≠ [] ∧ (line_feed ∉ header_line) ∧ trim header_line = header_line
  ∧ is_header header_line = true.
Proof.
  split; [discriminate|]. split; [|split; reflexivity].
  intros Hin. apply list_elem_of_In in Hin. vm_compute in Hin.
  intuition discriminate.
Qed.

Lemma collect_clean (dataLines : list jsstring) (out : list Vocab) :
  Forall (λ l, line_feed ∉ l) dataLines → Forall clean_record out →
  Forall clean_record (collect dataLines out).
Proof.
  intros Hlines. revert out.
  induction Hlines as [|line rest Hline _ IH]; intros out Hout; [done|].
  cbn [collect].
  destruct (liteSplit_parts line) as (h & p & e & Hsplit & Hh & Hp & Hshape).
  rewrite Hsplit. simpl. destruct h as [|c h]; [by apply IH|].
  apply IH. apply Forall_app. split; [done|]. constructor; [|constructor].
  unfold clean_record. simpl. split; [done|]. split; [done|]. split; [done|].
  destruct Hshape as [(-> & -> & ->) | [(-> & ->) | ->]].
  - split; [done|]. split; apply not_elem_of_nil.
  - split; [|split; [|apply not_elem_of_nil]]; intros Hin; apply Hline.
    + apply elem_of_app. by left.
    + apply elem_of_app. right. by right.
  - split; [|split]; intros Hin; apply Hline.
    + apply elem_of_app. by left.
    + apply elem_of_app. right. right. apply elem_of_app. by left.
    + apply elem_of_app. right. right. apply elem_of_app. right. by right.
Qed.

Lemma trimmed_lines_no_feed (text : jsstring) :
  Forall (λ l, line_feed ∉ l)
         (filter (λ l, 0 < length l) (map trim (split_lines text))).
Proof.
  apply list.Forall_forall. intros l [_ Hl]%list_elem_of_filter.
  apply list_elem_of_fmap in Hl as (l0 & -> & Hl0).
  pose proof (split_lines_no_feed text) as Hall.
  rewrite list.Forall_forall in Hall. intros Hin%trim_elem. by eapply Hall.
Qed.

End CsvFacts.

(** ** The sizer, continued *)

Module SizerMore.
Import Sizer.
Local Open Scope Z_scope.

Lemma shrink_unfold measure text boxW boxH padding size :
  shrink measure text boxW boxH padding size =
    if overflows measure text boxW boxH padding size
    then shrink measure text boxW boxH padding (size - 2)
    else size.
Proof.
  funelim (shrink measure text boxW boxH padding size).
  - by rewrite Hc.
  - match goal with H : overflows _ _ _ _ _ _ = false |- _ => by rewrite H end.
Qed.

(** The loop keeps the parity of the size. *)
Lemma shrink_parity measure text boxW boxH padding size :
  Z.even (shrink measure text boxW boxH padding size) = Z.even size.
Proof.
  funelim (shrink measure text boxW boxH padding size); [|done].
  match goal with IH : Z.even (shrink _ _ _ _ _ _) = _ |- _ => rewrite IH end.
  rewrite Z.even_sub. by destruct (Z.even size).
Qed.

(** The loop stops where its condition is false. *)
Lemma shrink_exit measure text boxW boxH padding size :
  overflows measure text boxW boxH padding
            (shrink measure text boxW boxH padding size) = false.
Proof.
  funelim (shrink measure text boxW boxH padding size); [done|].
  match goal with H : overflows _ _ _ _ _ _ = false |- _ => exact H end.
Qed.

(** Every size the loop passed had the condition true. *)
Lemma shrink_passed measure text boxW boxH padding size (s : Z) :
  shrink measure text boxW boxH padding size < s → s <= size →
  Z.even (size - s) = true →
  overflows measure text boxW boxH padding s = true.
Proof.
  funelim (shrink measure text boxW boxH padding size); intros Hlow Hhigh Hev.
  - destruct (decide (s = size)) as [->|Hne]; [exact Hc|].
    match goal with IH : ∀ s : Z, _ |- _ => apply IH end.
    + done.
    + assert (size - s ≠ 1) by (intros Heq; rewrite Heq in Hev; discriminate Hev).
      lia.
    + replace (size - 2 - s) with (size - s - 2) by lia.
      rewrite Z.even_sub, Hev. reflexivity.
  - lia.
Qed.

Lemma Qgtb_false (a b : Q) : Qgtb a b = false ↔ (a <= b)%Q.
Proof.
  unfold Qgtb. rewrite negb_false_iff. apply Qle_bool_iff.
Qed.

(** Above 12, a size at which the condition is false fits the box. *)
Lemma overflows_false measure text boxW boxH padding size :
  overflows measure text boxW boxH padding size = false → 12 < size →
  (measure text size <= boxW - 2 * padding)%Q
  ∧ (inject_Z size <= boxH - 2 * padding)%Q.
Proof.
  unfold overflows. intros H Hs.
  apply andb_false_iff in H as [H|H].
  - apply orb_false_elim in H as [H1 H2]. split; by apply Qgtb_false.
  - apply Z.ltb_ge in H. lia.
Qed.

(** The first size is within the height of the box, unless it is the 12 of
    the floor. *)
Lemma initial_size_within boxW boxH padding :
  12 < initial_size boxW boxH padding →
  (inject_Z (initial_size boxW boxH padding) <= boxH - 2 * padding)%Q.
Proof.
  unfold initial_size. intros Hgt.
  rewrite Z.max_r by lia.
  eapply Qle_trans; [apply Qfloor_le|].
  unfold Qminus. apply Qplus_le_compat; [apply Q.le_min_r|].
  rewrite (Qmult_comm padding 2). apply Qle_refl.
Qed.

Lemma inject_Z_sub (a b : Z) : inject_Z (a - b) = (inject_Z a - inject_Z b)%Q.
Proof.
  unfold Z.sub, Qminus. by rewrite inject_Z_plus, inject_Z_opp.
Qed.

(** For a box and a padding in whole numbers the first size and the test of
    the loop are those of integer arithmetic. *)
Lemma initial_size_whole (w h p : Z) :
  initial_size (inject_Z w) (inject_Z h) (inject_Z p)
  = Z.max 12 (Z.min w h - 2 * p).
Proof.
  unfold initial_size. f_equal.
  assert (Hmin : (Qmin (inject_Z w) (inject_Z h) == inject_Z (Z.min w h))%Q).
  { destruct (Z.le_ge_cases w h) as [Hle|Hge].
    - rewrite Z.min_l by done. apply Q.min_l. by rewrite <- Zle_Qle.
    - rewrite Z.min_r by lia. apply Q.min_r. rewrite <- Zle_Qle. lia. }
  assert (Heq : (Qmin (inject_Z w) (inject_Z h) - inject_Z p * 2
                 == inject_Z (Z.min w h - 2 * p))%Q).
  { rewrite Hmin. rewrite inject_Z_sub, inject_Z_mult. ring. }
  rewrite Heq. apply Qfloor_Z.
Qed.

Lemma less_padding (w p : Z) :
  (inject_Z w - 2 * inject_Z p == inject_Z (w - 2 * p))%Q.
Proof. rewrite inject_Z_sub, inject_Z_mult. reflexivity. Qed.

Lemma Qgtb_true (a b : Q) : Qgtb a b = true ↔ (b < a)%Q.
Proof.
  unfold Qgtb. rewrite negb_true_iff. split.
  - intros H. apply Qnot_le_lt. intros Hle. apply Qle_bool_iff in Hle. congruence.
  - intros H. destruct (Qle_bool a b) eqn:Hle; [|done].
    apply Qle_bool_iff in Hle. exfalso. by apply (Qlt_not_le _ _ H).
Qed.

(** The test of the loop, true, in whole numbers. *)
Lemma overflows_true_whole measure text (w h p size : Z) :
  overflows measure text (inject_Z w) (inject_Z h) (inject_Z p) size = true →
  ((inject_Z (w - 2 * p) < measure text size)%Q ∨ h - 2 * p < size) ∧ 12 < size.
Proof.
  unfold overflows. rewrite andb_true_iff, orb_true_iff, !Qgtb_true, Z.ltb_lt.
  rewrite !less_padding, <- Zlt_Qlt. tauto.
Qed.


End SizerMore.


(** ** The segmenter, continued *)

Module SegmentMore.
Import Segment.

Lemma split_length (intl : IntlSegmenter) (text : jsstring) (max : nat) :
  length (splitHanziToChars intl text max) = max.
Proof.
  rewrite SegmentFacts.splitHanziToChars_unfold. destruct text.
  - apply length_replicate.
  - rewrite length_app, length_take, length_replicate. lia.
Qed.

Lemma concat_blank (k : nat) : concat (replicate k empty_string) = [].
Proof. induction k as [|k IH]; [done|]. exact IH. Qed.

Lemma concat_take_drop {T} (n : nat) (l : list (list T)) :
  concat l = concat (take n l) ++ concat (drop n l).
Proof. by rewrite <- concat_app, take_drop. Qed.

Lemma elem_of_concat {T} (x : T) (u : list T) (l : list (list T)) :
  x ∈ u → u ∈ l → x ∈ concat l.
Proof.
  intros Hx Hu. induction Hu as [u l | u v l _ IH]; cbn; apply elem_of_app.
  - by left.
  - right. by apply IH.
Qed.

Lemma array_from_filled (s : jsstring) : Forall (λ u, u ≠ []) (array_from s).
Proof.
  eapply list.Forall_impl; [apply SegmentFacts.array_from_units|].
  intros u [[a ->] | (a & b & -> & _)]; discriminate.
Qed.

(** A unit of the cleaned text has no white space. *)
Lemma array_from_clean_no_space (text : jsstring) :
  Forall (λ u, Forall (λ c, is_space c = false) u) (array_from (clean text)).
Proof.
  apply list.Forall_forall. intros u Hu. apply list.Forall_forall. intros c Hc.
  pose proof (elem_of_concat c u _ Hc Hu) as Hin.
  rewrite SegmentFacts.array_from_concat in Hin.
  pose proof (SegmentFacts.clean_no_space text) as Hclean.
  rewrite list.Forall_forall in Hclean. by apply Hclean.
Qed.

(** Without [Intl.Segmenter]: the units, then the empty strings. *)
Lemma split_fallback (text : jsstring) (max : nat) :
  splitHanziToChars None text max
  = take max (array_from (clean text))
    ++ replicate (max - length (array_from (clean text))) empty_string.
Proof.
  rewrite SegmentFacts.splitHanziToChars_unfold. destruct text as [|c text]; [|done].
  cbn. by rewrite take_nil, Nat.sub_0_r.
Qed.

End SegmentMore.


(** ** The deck and the page, continued *)

Module PageMore.
Import QueueFacts PageFacts.

Lemma shuffle_loop_world {T} (i : nat) (copy : list T) (w : World) :
  (shuffle_loop i copy w).2
  = mkWorld (uuid_count w) (uuid_source w) (random_count w + i) (random_source w).
Proof.
  revert copy w. induction i as [|i IH]; intros copy [c src rc rs].
  - cbn. by rewrite Nat.add_0_r.
  - cbn [shuffle_loop]. unfold bind, Math_random.
    cbn [uuid_count uuid_source random_count random_source].
    rewrite IH. cbn. f_equal. lia.
Qed.

Lemma shuffle_loop_length {T} (i : nat) (copy : list T) (w : World) :
  length (shuffle_loop i copy w).1 = length copy.
Proof. apply Permutation_length, DeckFacts.shuffle_loop_perm. Qed.

Lemma loadCards_world (vocab : list Vocab) (s : Trainer) (w : World) :
  uuid_count (loadCards vocab s w).2 = uuid_count w + 2 * length vocab
  ∧ uuid_source (loadCards vocab s w).2 = uuid_source w.
Proof.
  rewrite loadCards_eq. cbv zeta. cbn [snd]. unfold shuffle.
  by rewrite shuffle_loop_world.
Qed.

Lemma loadCards_any_state (vocab : list Vocab) (s s' : Trainer) (w : World) :
  loadCards vocab s w = loadCards vocab s' w.
Proof. by rewrite !loadCards_eq. Qed.

Lemma cards_from_ids src c vocab :
  map id (cards_from src c vocab)
  = map (λ n, src (c + 2 * n)) (seq 0 (length vocab)).
Proof.
  revert c. induction vocab as [|v rest IH]; intros c; [done|].
  cbn [cards_from map length seq id]. f_equal.
  - f_equal. lia.
  - rewrite IH, <- seq_shift, map_map. apply map_ext. intros n. f_equal. lia.
Qed.

Lemma clone_records (c : Card) (i : jsstring) :
  record_of (clone_short (Some c) i) = record_of c
  ∧ record_of (clone_end (Some c) i) = record_of c
  ∧ baseId (clone_short (Some c) i) = baseId c
  ∧ baseId (clone_end (Some c) i) = baseId c.
Proof. by destruct c. Qed.

(** The queue after [onIncorrect], as a multiset. *)
Lemma reinsert_perm (r : Trainer) (short atEnd : Card) (prev : list Card) :
  reinsert r short atEnd prev ≡ₚ short :: atEnd :: prev.
Proof.
  rewrite reinsert_eq. cbv zeta.
  set (p := Nat.min (idx r + 4) (length prev)).
  rewrite <- (take_drop p prev) at 3.
  rewrite <- Permutation_middle. f_equiv.
  rewrite (Permutation_app_comm (drop p prev) [atEnd]). cbn.
  by rewrite <- Permutation_middle.
Qed.

(** Case analysis on an event that was handled. *)
Ltac handled H :=
  unfold handle in H;
  let Hc := fresh "Hcur" in
  destruct (current (trainer _)) as [?c|] eqn:Hc in H;
  [ match type of H with
    | context [match ?e with Check => _ | _ => _ end] => destruct e
    end;
    try discriminate H;
    try (destruct (showAnswer (trainer _)) eqn:?Hshown in H; [|discriminate H])
  | match type of H with
    | context [match ?e with StartAgain => _ | _ => _ end] => destruct e
    end;
    try discriminate H ].

Section Page.

Variable vocab : list Vocab.

Lemma cards_from_show src c :
  Forall (λ card, ∃ v, v ∈ vocab ∧ record_of card = Some v) (cards_from src c vocab).
Proof.
  apply list.Forall_forall. intros card Hin.
  assert (Hrec : record_of card ∈ map record_of (cards_from src c vocab)).
  { apply list_elem_of_fmap. by exists card. }
  rewrite cards_from_records in Hrec.
  apply list_elem_of_fmap in Hrec as (v & Hv & Hin'). by exists v.
Qed.

Lemma loadCards_shows (s : Trainer) (w : World) (a : App) :
  Invariants.shows_vocabulary vocab (rerender a (loadCards vocab s w).1 (loadCards vocab s w).2).
Proof.
  unfold Invariants.shows_vocabulary. cbn [rerender trainer].
  rewrite (loadCards_perm vocab s w). apply cards_from_show.
Qed.

Lemma handle_shows (e : Event) (a a' : App) :
  Invariants.shows_vocabulary vocab a → handle vocab e a = Some a' →
  Invariants.shows_vocabulary vocab a'.
Proof.
  intros Ha H. handled H.
  - by injection H as <-.
  - by injection H as <-.
  - rewrite onIncorrect_eq in H. cbv zeta in H. injection H as <-.
    unfold Invariants.shows_vocabulary in *. cbn [rerender trainer cards].
    rewrite reinsert_perm.
    assert (Hc : ∃ v, v ∈ vocab ∧ record_of c = Some v).
    { rewrite list.Forall_forall in Ha. apply Ha.
      by eapply list_elem_of_lookup_2. }
    unfold current in Hcur. rewrite Hcur.
    destruct (clone_records c (uuid_source (world a) (uuid_count (world a))))
      as (Hs & _).
    destruct (clone_records c (uuid_source (world a) (S (uuid_count (world a)))))
      as (_ & He & _).
    constructor; [by rewrite Hs|]. constructor; [by rewrite He | done].
  - by injection H as <-.
  - by injection H as <-.
  - by injection H as <-.
  - destruct (loadCards vocab (trainer a) (world a)) as [t' w'] eqn:Hl.
    injection H as <-.
    replace t' with (loadCards vocab (trainer a) (world a)).1 by by rewrite Hl.
    replace w' with (loadCards vocab (trainer a) (world a)).2 by by rewrite Hl.
    apply loadCards_shows.
Qed.

Lemma start_eq (w : World) :
  start vocab w
  = rerender (mkApp first_render None w)
             (loadCards vocab first_render w).1 (loadCards vocab first_render w).2.
Proof. unfold start. by destruct (loadCards vocab first_render w). Qed.

Lemma run_shows (es : list Event) (a a' : App) :
  Invariants.shows_vocabulary vocab a → run vocab es a = Some a' →
  Invariants.shows_vocabulary vocab a'.
Proof.
  revert a. induction es as [|e es IH]; intros a Ha H; cbn in H.
  - by injection H as <-.
  - destruct (handle vocab e a) as [a1|] eqn:He; [|discriminate H].
    eapply IH; [|exact H]. by eapply handle_shows.
Qed.

(** The identifiers after dealing the cards. *)
Lemma loadCards_ids (s : Trainer) (w : World) (a : App) :
  Inj (=) (=) (uuid_source w) →
  Invariants.ids_drawn (rerender a (loadCards vocab s w).1 (loadCards vocab s w).2).
Proof.
  intros Hinj. unfold Invariants.ids_drawn. cbn [rerender trainer world].
  destruct (loadCards_world vocab s w) as [Hcount Hsrc].
  rewrite Hcount, Hsrc. rewrite (loadCards_perm vocab s w).
  split.
  - rewrite cards_from_ids. apply NoDup_fmap_2; [|apply NoDup_seq].
    intros n m Hnm. apply Hinj in Hnm. lia.
  - apply list.Forall_forall. intros card Hin.
    assert (Hid : id card ∈ map id (cards_from (uuid_source w) (uuid_count w) vocab)).
    { apply list_elem_of_fmap. by exists card. }
    rewrite cards_from_ids in Hid.
    apply list_elem_of_fmap in Hid as (n & Hn & Hseq).
    apply elem_of_seq in Hseq. exists (uuid_count w + 2 * n). split; [lia | done].
Qed.

Lemma handle_source (e : Event) (a a' : App) :
  handle vocab e a = Some a' → uuid_source (world a') = uuid_source (world a).
Proof.
  intros H. handled H; try (by injection H as <-).
  destruct (loadCards vocab (trainer a) (world a)) as [t' w'] eqn:Hl.
  injection H as <-. cbn.
  replace w' with (loadCards vocab (trainer a) (world a)).2 by by rewrite Hl.
  apply loadCards_world.
Qed.

Lemma handle_ids (e : Event) (a a' : App) :
  Inj (=) (=) (uuid_source (world a)) →
  Invariants.ids_drawn a → handle vocab e a = Some a' → Invariants.ids_drawn a'.
Proof.
  intros Hinj Ha H. handled H; try (by injection H as <-).
  - rewrite onIncorrect_eq in H. cbv zeta in H. injection H as <-.
    destruct Ha as [Hnd Hold]. unfold Invariants.ids_drawn.
    cbn [rerender trainer world cards uuid_count uuid_source].
    set (src := uuid_source (world a)) in *. set (n0 := uuid_count (world a)) in *.
    assert (Hfresh : ∀ k, n0 ≤ k → src k ∉ map id (cards (trainer a))).
    { intros k Hk Hin. apply list_elem_of_fmap in Hin as (card & Hid & Hcard).
      rewrite list.Forall_forall in Hold.
      destruct (Hold card Hcard) as (n & Hn & Hidn).
      rewrite Hidn in Hid. apply Hinj in Hid. lia. }
    split.
    + rewrite reinsert_perm. cbn [map id clone_short clone_end].
      apply list.NoDup_cons. split.
      * rewrite not_elem_of_cons. split; [|by apply Hfresh].
        intros Heq. apply Hinj in Heq. lia.
      * apply list.NoDup_cons. split; [apply Hfresh; lia | done].
    + rewrite reinsert_perm. constructor; [exists n0; split; [lia | done]|].
      constructor; [exists (S n0); split; [lia | done]|].
      eapply list.Forall_impl; [exact Hold|].
      intros card (n & Hn & Hid). exists n. split; [lia | done].
  - destruct (loadCards vocab (trainer a) (world a)) as [t' w'] eqn:Hl.
    injection H as <-.
    replace t' with (loadCards vocab (trainer a) (world a)).1 by by rewrite Hl.
    replace w' with (loadCards vocab (trainer a) (world a)).2 by by rewrite Hl.
    by apply loadCards_ids.
Qed.

Lemma run_ids (es : list Event) (a a' : App) :
  Inj (=) (=) (uuid_source (world a)) →
  Invariants.ids_drawn a → run vocab es a = Some a' → Invariants.ids_drawn a'.
Proof.
  revert a. induction es as [|e es IH]; intros a Hinj Ha H; cbn in H.
  - by injection H as <-.
  - destruct (handle vocab e a) as [a1|] eqn:He; [|discriminate H].
    eapply (IH a1); [|by eapply handle_ids|exact H].
    by rewrite (handle_source e a a1 He).
Qed.

(** An event other than the restart leaves the queue as it is up to and
    with the current card. *)
Lemma handle_history (e : Event) (a a' : App) (n : nat) :
  e ≠ StartAgain → handle vocab e a = Some a' → n ≤ idx (trainer a) + 1 →
  take n (cards (trainer a')) = take n (cards (trainer a)).
Proof.
  intros Hne H Hn. handled H; try done; try (by injection H as <-).
  rewrite onIncorrect_eq in H. cbv zeta in H. injection H as <-.
  cbn [rerender trainer cards]. rewrite reinsert_eq. cbv zeta.
  apply current_Some_lt in Hcur.
  set (p := Nat.min (idx (trainer a) + 4) (length (cards (trainer a)))).
  rewrite take_app_le by (rewrite length_take; lia).
  rewrite take_take. f_equal. lia.
Qed.

Lemma run_history (es : list Event) (a a' : App) (n : nat) :
  StartAgain ∉ es → run vocab es a = Some a' → n ≤ idx (trainer a) + 1 →
  take n (cards (trainer a')) = take n (cards (trainer a)).
Proof.
  revert a. induction es as [|e es IH]; intros a Hno H Hn; cbn in H.
  - by injection H as <-.
  - destruct (handle vocab e a) as [a1|] eqn:He; [|discriminate H].
    apply not_elem_of_cons in Hno as [Hne Hno].
    destruct (handle_progress vocab e a a1 (not_eq_sym Hne) He) as [Hidx _].
    rewrite (IH a1 Hno H) by lia.
    by apply (handle_history e a a1 n (not_eq_sym Hne) He).
Qed.


End Page.

End PageMore.


(** * Further theorems *)

Module Extras.
Import QueueFacts PageFacts.

(** A decidable membership goal on closed lists. *)
Ltac not_in_closed :=
  let H := fresh in
  intros H; apply list_elem_of_In in H; vm_compute in H; intuition discriminate.

Ltac closed_writable :=
  split; [discriminate|]; split; [not_in_closed|]; split; [not_in_closed|];
  split; [not_in_closed | reflexivity].

(** ** liteSplit *)

(** X1.  A line made of a first and a second field without comma and any
    third field gives back these three fields: further commas stay in the
    third. *)
Theorem liteSplit_recovers_fields (h p e : jsstring) :
  Csv.comma ∉ h → Csv.comma ∉ p →
  Csv.liteSplit (h ++ Csv.comma :: p ++ Csv.comma :: e) = [h; p; e]
  ∧ Csv.join Csv.comma (Csv.liteSplit (h ++ Csv.comma :: p ++ Csv.comma :: e))
    = h ++ Csv.comma :: p ++ Csv.comma :: e.
Proof.
  intros Hh Hp. rewrite CsvFacts.liteSplit_fields by done. split; [done|].
  cbn. destruct e; reflexivity.
Qed.

Lemma liteSplit_recovers_fields_witness :
  (Csv.comma ∉ v_hanzi MoreSamples.hao)
  ∧ (Csv.comma ∉ v_pinyin MoreSamples.hao)
  ∧ Csv.liteSplit (Csv.record_line MoreSamples.hao)
    = [v_hanzi MoreSamples.hao; v_pinyin MoreSamples.hao; v_english MoreSamples.hao].
Proof.
  split; [not_in_closed|]. split; [not_in_closed|].
  apply (liteSplit_recovers_fields (v_hanzi MoreSamples.hao)
           (v_pinyin MoreSamples.hao) (v_english MoreSamples.hao));
    not_in_closed.
Defined.

(** X2.  For every line, [liteSplit] returns three fields, the first two
    without comma, and the line is the fields that are there with the commas
    put back: the first alone, the first two, or all three. *)
Theorem liteSplit_reassembles (line : jsstring) :
  ∃ h p e,
    Csv.liteSplit line = [h; p; e]
    ∧ (Csv.comma ∉ h) ∧ (Csv.comma ∉ p)
    ∧ ((line = h ∧ p = [] ∧ e = [])
       ∨ (line = h ++ Csv.comma :: p ∧ e = [])
       ∨ line = h ++ Csv.comma :: p ++ Csv.comma :: e)
    ∧ length (Csv.liteSplit line) = 3.
Proof.
  destruct (CsvFacts.liteSplit_parts line) as (h & p & e & Hs & Hh & Hp & Hshape).
  exists h, p, e. rewrite Hs. by repeat split.
Qed.

(** ** parseCSV2 *)

(** X3.  Every record that [parseCSV2] returns, from any text, has a first
    field that is not empty, no comma in its first two fields and no line
    feed in any field. *)
Theorem parseCSV2_records_clean (text : jsstring) :
  Forall Csv.clean_record (Csv.parseCSV2 text).
Proof.
  unfold Csv.parseCSV2.
  pose proof (CsvFacts.trimmed_lines_no_feed text) as Hlines.
  destruct (filter _ (map Csv.trim (Csv.split_lines text))) as [|first others];
    [constructor|].
  apply CsvFacts.collect_clean; [|constructor].
  destruct (Csv.is_header first); [|done].
  by apply list.Forall_cons in Hlines as [_ ?].
Qed.

(** X4.  A text in the layout of the sample (header, one line per record)
    is read back as the records it was made of, when every record is
    writable.  Without the header line the same records are read, except
    that a first record line that reads as a header is dropped. *)
Theorem parseCSV2_reads_back (records : list Vocab) :
  Forall Csv.writable records →
  Csv.parseCSV2 (Csv.csv_text records) = records
  ∧ Csv.parseCSV2 (Csv.join Csv.line_feed (map Csv.record_line records))
    = match records with
      | v :: rest => if Csv.is_header (Csv.record_line v) then rest else records
      | [] => []
      end.
Proof.
  intros Hall.
  assert (Hlines : Forall (λ l, l ≠ [] ∧ (Csv.line_feed ∉ l) ∧ Csv.trim l = l)
                          (map Csv.record_line records)).
  { apply Forall_fmap. eapply list.Forall_impl; [exact Hall|].
    intros v Hv. by apply CsvFacts.writable_line. }
  destruct CsvFacts.header_line_ok as (Hh1 & Hh2 & Hh3 & Hh4).
  split.
  - unfold Csv.parseCSV2, Csv.csv_text.
    rewrite CsvFacts.lines_of_join by (constructor; done).
    rewrite Hh4. by apply CsvFacts.collect_record_lines.
  - destruct records as [|v rest]; [done|].
    unfold Csv.parseCSV2. rewrite map_cons.
    rewrite CsvFacts.lines_of_join by (by rewrite <- map_cons).
    destruct (Csv.is_header (Csv.record_line v)).
    + apply CsvFacts.collect_record_lines. by apply list.Forall_cons in Hall as [_ ?].
    + rewrite <- map_cons. by apply CsvFacts.collect_record_lines.
Qed.

Lemma parseCSV2_reads_back_witness :
  Forall Csv.writable [MoreSamples.hao; MoreSamples.ma]
  ∧ Csv.parseCSV2 (Csv.csv_text [MoreSamples.hao; MoreSamples.ma])
    = [MoreSamples.hao; MoreSamples.ma].
Proof.
  assert (H : Forall Csv.writable [MoreSamples.hao; MoreSamples.ma]).
  { constructor; [closed_writable|]. constructor; [closed_writable|]. constructor. }
  split; [exact H|].
  exact (proj1 (parseCSV2_reads_back [MoreSamples.hao; MoreSamples.ma] H)).
Defined.

(** X5.  A text of white space and line breaks only, the empty text among
    them, has no record. *)
Theorem parseCSV2_blank (text : jsstring) :
  Forall (λ c, Segment.is_space c = true) text → Csv.parseCSV2 text = [].
Proof.
  intros Hblank. unfold Csv.parseCSV2.
  assert (Hnone : filter (λ l, 0 < length l)
                         (map Csv.trim (Csv.split_lines text)) = []).
  { pose proof (CsvFacts.split_lines_elem text) as Hel.
    induction Hel as [|l ls Hl _ IH]; [done|].
    rewrite map_cons, filter_cons.
    rewrite (CsvFacts.trim_blank l).
    - rewrite decide_False by (simpl; lia). exact IH.
    - apply list.Forall_forall. intros x Hx.
      rewrite list.Forall_forall in Hblank. by apply Hblank, Hl. }
  by rewrite Hnone.
Qed.

Lemma parseCSV2_blank_witness :
  Forall (λ c, Segment.is_space c = true) [0x20; 0x0D; 0x0A; 0x3000; 0x0A]%N
  ∧ Csv.parseCSV2 [0x20; 0x0D; 0x0A; 0x3000; 0x0A]%N = [].
Proof.
  assert (H : Forall (λ c, Segment.is_space c = true) [0x20; 0x0D; 0x0A; 0x3000; 0x0A]%N).
  { repeat constructor. }
  split; [exact H|].
  exact (parseCSV2_blank [0x20; 0x0D; 0x0A; 0x3000; 0x0A]%N H).
Defined.

(** ** fitFontSize, for a box and a padding in whole numbers *)

(** X6.  For a box and a padding in whole numbers: a result above 12 fits,
    that is, the width measured at that size is at most [boxW - 2 padding]
    and the size is at most [boxH - 2 padding]. *)
Theorem fitFontSize_fits_above_floor (measure : Sizer.Measure) (text : jsstring)
    (w h p : Z) :
  SizerDomain.whole w h p →
  let size := Sizer.fitFontSize measure text (inject_Z w) (inject_Z h) (inject_Z p) in
  (12 < size)%Z →
  (measure text size <= inject_Z (w - 2 * p))%Q ∧ (size <= h - 2 * p)%Z.
Proof.
  intros _ size Hgt.
  destruct (SizerMore.overflows_false measure text (inject_Z w) (inject_Z h)
              (inject_Z p) size) as [Hw Hh].
  - apply SizerMore.shrink_exit.
  - exact Hgt.
  - rewrite SizerMore.less_padding in Hw, Hh. split; [exact Hw|].
    by rewrite Zle_Qle.
Qed.

Lemma fitFontSize_fits_above_floor_witness :
  SizerDomain.whole 300 300 16
  ∧ (12 < Sizer.fitFontSize Samples.one_em_each Samples.ni_hao
             (inject_Z 300) (inject_Z 300) (inject_Z 16))%Z
  ∧ (Sizer.fitFontSize Samples.one_em_each Samples.ni_hao
       (inject_Z 300) (inject_Z 300) (inject_Z 16) <= 300 - 2 * 16)%Z.
Proof.
  assert (Hwhole : SizerDomain.whole 300 300 16).
  { unfold SizerDomain.whole. cbn. lia. }
  split; [exact Hwhole|]. split; [vm_compute; reflexivity|].
  apply (fitFontSize_fits_above_floor Samples.one_em_each Samples.ni_hao
           300 300 16 Hwhole).
  vm_compute. reflexivity.
Defined.

(** X7.  For a box and a padding in whole numbers: the result is at most
    the first size [max(12, min(boxW, boxH) - 2 padding)] and has its
    parity; it is at least 12, or it is 11 and the first size was odd. *)
Theorem fitFontSize_range (measure : Sizer.Measure) (text : jsstring) (w h p : Z) :
  SizerDomain.whole w h p →
  let first := Z.max 12 (Z.min w h - 2 * p) in
  let size := Sizer.fitFontSize measure text (inject_Z w) (inject_Z h) (inject_Z p) in
  (size <= first)%Z
  ∧ Z.even size = Z.even first
  ∧ ((12 <= size)%Z ∨ (size = 11%Z ∧ Z.even first = false)).
Proof.
  intros _ first size. unfold size, Sizer.fitFontSize.
  rewrite SizerMore.initial_size_whole. fold first.
  pose proof (SizerMore.shrink_parity measure text (inject_Z w) (inject_Z h)
                (inject_Z p) first) as Hpar.
  split; [apply SizerFacts.shrink_le|]. split; [exact Hpar|].
  assert (H12 : (12 <= first)%Z) by (unfold first; lia).
  destruct (Z.even first) eqn:Hev.
  - left. by apply SizerFacts.shrink_even_ge_12.
  - pose proof (SizerFacts.shrink_ge_11 measure text (inject_Z w) (inject_Z h)
                  (inject_Z p) first ltac:(lia)) as H11.
    destruct (decide (Sizer.shrink measure text (inject_Z w) (inject_Z h)
                        (inject_Z p) first = 11%Z)) as [Heq|Hne].
    + right. by split.
    + left. lia.
Qed.

Lemma fitFontSize_range_witness :
  SizerDomain.whole 45 45 16
  ∧ (Sizer.fitFontSize Samples.one_em_each Samples.ni_hao
       (inject_Z 45) (inject_Z 45) (inject_Z 16) <= Z.max 12 (Z.min 45 45 - 2 * 16))%Z.
Proof.
  assert (Hwhole : SizerDomain.whole 45 45 16).
  { unfold SizerDomain.whole. cbn. lia. }
  split; [exact Hwhole|].
  apply (fitFontSize_range Samples.one_em_each Samples.ni_hao 45 45 16 Hwhole).
Defined.

(** X8.  For a box and a padding in whole numbers: the result is the first
    size of the descent that passes the test of the loop.  At every size
    above the result, up to the first size and in steps of 2 from it, the
    measured width exceeded [boxW - 2 padding] or the size exceeded
    [boxH - 2 padding]. *)
Theorem fitFontSize_largest (measure : Sizer.Measure) (text : jsstring)
    (w h p s : Z) :
  SizerDomain.whole w h p →
  let first := Z.max 12 (Z.min w h - 2 * p) in
  (Sizer.fitFontSize measure text (inject_Z w) (inject_Z h) (inject_Z p) < s)%Z →
  (s <= first)%Z →
  Z.even (first - s) = true →
  (inject_Z (w - 2 * p) < measure text s)%Q ∨ (h - 2 * p < s)%Z.
Proof.
  intros _ first Hlow Hhigh Hev.
  unfold Sizer.fitFontSize in Hlow. rewrite SizerMore.initial_size_whole in Hlow.
  fold first in Hlow.
  pose proof (SizerMore.shrink_passed measure text (inject_Z w) (inject_Z h)
                (inject_Z p) first s Hlow Hhigh Hev) as Hover.
  by apply SizerMore.overflows_true_whole in Hover as [? _].
Qed.

Lemma fitFontSize_largest_witness :
  SizerDomain.whole 300 300 16
  ∧ (Sizer.fitFontSize Samples.one_em_each Samples.ni_hao
       (inject_Z 300) (inject_Z 300) (inject_Z 16) < 136)%Z
  ∧ (136 <= Z.max 12 (Z.min 300 300 - 2 * 16))%Z
  ∧ Z.even (Z.max 12 (Z.min 300 300 - 2 * 16) - 136) = true
  ∧ ((inject_Z (300 - 2 * 16) < Samples.one_em_each Samples.ni_hao 136%Z)%Q
     ∨ (300 - 2 * 16 < 136)%Z).
Proof.
  assert (Hwhole : SizerDomain.whole 300 300 16).
  { unfold SizerDomain.whole. cbn. lia. }
  split; [exact Hwhole|]. split; [vm_compute; reflexivity|].
  split; [vm_compute; discriminate|]. split; [vm_compute; reflexivity|].
  apply (fitFontSize_largest Samples.one_em_each Samples.ni_hao 300 300 16 136 Hwhole).
  - vm_compute. reflexivity.
  - vm_compute. discriminate.
  - vm_compute. reflexivity.
Defined.

(** X9.  For a box and a padding in whole numbers: when the text, measured
    at the first size, is at most [boxW - 2 padding] wide, the first size is
    the result. *)
Theorem fitFontSize_keeps_fitting_size (measure : Sizer.Measure) (text : jsstring)
    (w h p : Z) :
  SizerDomain.whole w h p →
  let first := Z.max 12 (Z.min w h - 2 * p) in
  (measure text first <= inject_Z (w - 2 * p))%Q →
  Sizer.fitFontSize measure text (inject_Z w) (inject_Z h) (inject_Z p) = first.
Proof.
  intros _ first Hfit. unfold Sizer.fitFontSize.
  rewrite SizerMore.initial_size_whole. fold first.
  rewrite SizerMore.shrink_unfold.
  assert (Hno : Sizer.overflows measure text (inject_Z w) (inject_Z h)
                  (inject_Z p) first = false).
  { destruct (Sizer.overflows measure text (inject_Z w) (inject_Z h)
                (inject_Z p) first) eqn:Hover; [|done].
    apply SizerMore.overflows_true_whole in Hover as [[Hwide | Hhigh] Hgt].
    - exfalso. by apply (Qlt_not_le _ _ Hwide).
    - unfold first in *. lia. }
  by rewrite Hno.
Qed.

Lemma fitFontSize_keeps_fitting_size_witness :
  SizerDomain.whole 300 300 16
  ∧ (Samples.one_em_each [0x6C49]%N (Z.max 12 (Z.min 300 300 - 2 * 16))
     <= inject_Z (300 - 2 * 16))%Q
  ∧ Sizer.fitFontSize Samples.one_em_each [0x6C49]%N
      (inject_Z 300) (inject_Z 300) (inject_Z 16) = 268%Z.
Proof.
  assert (Hwhole : SizerDomain.whole 300 300 16).
  { unfold SizerDomain.whole. cbn. lia. }
  split; [exact Hwhole|]. split; [vm_compute; discriminate|].
  apply (fitFontSize_keeps_fitting_size Samples.one_em_each [0x6C49]%N
           300 300 16 Hwhole).
  vm_compute. discriminate.
Defined.

(** X10.  For a box and a padding in whole numbers: when the smaller side
    less twice the padding is below 13, the result is 12, whatever the text
    measures. *)
Theorem fitFontSize_small_box (measure : Sizer.Measure) (text : jsstring)
    (w h p : Z) :
  SizerDomain.whole w h p →
  (Z.min w h - 2 * p < 13)%Z →
  Sizer.fitFontSize measure text (inject_Z w) (inject_Z h) (inject_Z p) = 12%Z.
Proof.
  intros _ Hsmall. unfold Sizer.fitFontSize.
  rewrite SizerMore.initial_size_whole. rewrite Z.max_l by lia.
  rewrite SizerMore.shrink_unfold.
  unfold Sizer.overflows. rewrite Z.ltb_irrefl. by rewrite andb_false_r.
Qed.

Lemma fitFontSize_small_box_witness :
  SizerDomain.whole 40 30 16
  ∧ (Z.min 40 30 - 2 * 16 < 13)%Z
  ∧ Sizer.fitFontSize Samples.one_em_each Samples.han_ri_cidian
      (inject_Z 40) (inject_Z 30) (inject_Z 16) = 12%Z.
Proof.
  assert (Hwhole : SizerDomain.whole 40 30 16).
  { unfold SizerDomain.whole. cbn. lia. }
  split; [exact Hwhole|]. split; [vm_compute; reflexivity|].
  apply (fitFontSize_small_box Samples.one_em_each Samples.han_ri_cidian
           40 30 16 Hwhole).
  vm_compute. reflexivity.
Defined.

(** ** splitHanziToChars on a host without Intl.Segmenter *)

(** X11.  The units returned, glued together, are the start of the text
    without its white space; what is missing are the code points after the
    first [max], and nothing when there are at most [max]. *)
Theorem split_fallback_keeps_text (text : jsstring) (max : nat) :
  let units := Segment.array_from (Segment.clean text) in
  Segment.clean text
  = concat (Segment.splitHanziToChars None text max) ++ concat (drop max units)
  ∧ (if decide (length units ≤ max)
     then concat (Segment.splitHanziToChars None text max) = Segment.clean text
     else True).
Proof.
  intros units.
  assert (Hcat : concat (Segment.splitHanziToChars None text max)
                 = concat (take max units)).
  { rewrite SegmentMore.split_fallback, concat_app, SegmentMore.concat_blank.
    by rewrite app_nil_r. }
  assert (Hall : Segment.clean text
                 = concat (take max units) ++ concat (drop max units)).
  { rewrite <- (SegmentFacts.array_from_concat (Segment.clean text)) at 1.
    apply SegmentMore.concat_take_drop. }
  rewrite Hcat. split; [exact Hall|].
  case_decide; [|done].
  etrans; [|symmetry; exact Hall].
  rewrite (drop_ge units max) by done. by rewrite app_nil_r.
Qed.

(** X12.  Each unit returned is empty, one code unit, or one surrogate
    pair, and holds no white space; the units that are not empty come first:
    there are as many as the text has code points, at most [max], and the
    rest are empty. *)
Theorem split_fallback_units (text : jsstring) (max : nat) :
  let result := Segment.splitHanziToChars None text max in
  let filled := Nat.min max (length (Segment.array_from (Segment.clean text))) in
  Forall (λ u, (u = [] ∨ (∃ a, u = [a])
                ∨ (∃ a b, u = [a; b] ∧ Segment.is_high_surrogate a = true
                                     ∧ Segment.is_low_surrogate b = true))
               ∧ Forall (λ c, Segment.is_space c = false) u) result
  ∧ Forall (λ u, u ≠ []) (take filled result)
  ∧ drop filled result = replicate (max - filled) empty_string.
Proof.
  intros result filled. unfold result. rewrite SegmentMore.split_fallback.
  set (units := Segment.array_from (Segment.clean text)).
  assert (Hlen : length (take max units) = filled).
  { rewrite length_take. reflexivity. }
  split; [|split].
  - apply Forall_app. split.
    + apply Forall_take. apply list.Forall_forall. intros u Hu.
      pose proof (SegmentFacts.array_from_units (Segment.clean text)) as Hshape.
      pose proof (SegmentMore.array_from_clean_no_space text) as Hspace.
      rewrite list.Forall_forall in Hshape, Hspace.
      split; [right; by apply Hshape | by apply Hspace].
    + apply Forall_replicate. split; [by left | constructor].
  - rewrite take_app_le by lia. rewrite take_ge by lia.
    apply Forall_take, SegmentMore.array_from_filled.
  - rewrite drop_app_ge by lia. rewrite Hlen, Nat.sub_diag, drop_0.
    f_equal. unfold filled. fold units. lia.
Qed.


(** ** The ghost layer *)

(** X13.  On every page, for every host and font: there are four ghost
    layers while a card is shown and none on the finished page; a layer shows
    something only once the answer is shown and only for a unit that is not
    empty, and then at an even size from 12 to 268. *)
Theorem ghost_layers_in_app (intl : Segment.IntlSegmenter) (measure : Sizer.Measure)
    (a : App) :
  let shown := Ghost.layers intl measure a in
  length shown = (if exhausted (trainer a) then 0 else 4)
  ∧ Forall (λ g, match g with
                 | Some (ch, size) =>
                     showAnswer (trainer a) = true ∧ ch ≠ []
                     ∧ (12 <= size <= 268)%Z ∧ Z.even size = true
                 | None => True
                 end) shown
  ∧ (if showAnswer (trainer a) then True else Forall (λ g, g = None) shown).
Proof.
  intros shown. unfold shown, Ghost.layers, exhausted.
  destruct (current (trainer a)) as [card|].
  2: { split; [done|]. split; [constructor|]. by destruct (showAnswer (trainer a)). }
  split; [by rewrite length_map, SegmentMore.split_length|].
  split.
  - apply Forall_fmap, list.Forall_forall. intros ch _. cbn.
    unfold Ghost.layer. destruct (showAnswer (trainer a)); [|done].
    destruct ch as [|c ch]; [done|].
    pose proof (SizerFacts.shrink_le measure (c :: ch) 300 300 16
                  (Sizer.initial_size 300 300 16)) as Hle.
    pose proof (SizerFacts.fitFontSize_even_start measure (c :: ch) 300 300 16 eq_refl)
      as Hge.
    pose proof (SizerMore.shrink_parity measure (c :: ch) 300 300 16
                  (Sizer.initial_size 300 300 16)) as Hpar.
    change (Sizer.initial_size 300 300 16) with 268%Z in Hle, Hpar.
    split; [done|]. split; [done|]. split; [split; [exact Hge | exact Hle]|].
    exact Hpar.
  - destruct (showAnswer (trainer a)); [done|].
    apply Forall_fmap, list.Forall_forall. intros ch _. by destruct ch.
Qed.

(** ** shuffle and textToCards *)

(** X14.  [shuffle] returns a permutation of its argument, of the same
    length; it draws one random number for each element but the first and no
    identifier. *)
Theorem shuffle_permutes {T} (array : list T) (w : World) :
  (shuffle array w).1 ≡ₚ array
  ∧ length (shuffle array w).1 = length array
  ∧ random_count (shuffle array w).2 = random_count w + (length array - 1)
  ∧ uuid_count (shuffle array w).2 = uuid_count w
  ∧ uuid_source (shuffle array w).2 = uuid_source w
  ∧ random_source (shuffle array w).2 = random_source w.
Proof.
  unfold shuffle. rewrite PageMore.shuffle_loop_world. cbn.
  split; [apply DeckFacts.shuffle_loop_perm|].
  split; [apply PageMore.shuffle_loop_length|]. done.
Qed.

(** X15.  [textToCards] makes one card per record, in the order of the
    records, with the texts of the record and no flag; the card of the record
    at index [n] gets the identifiers drawn at the calls [2n] and [2n+1]
    counted from the call, as [id] and [baseId]; as each [uuid()] call
    uses one result of [Math.random()], twice as many identifiers and twice
    as many random numbers as there are records are used up. *)
Theorem textToCards_in_order (vocab : list Vocab) (w : World) :
  let made := (textToCards vocab w).1 in
  let after := (textToCards vocab w).2 in
  map record_of made = map Some vocab
  ∧ map id made
    = map (λ n, uuid_source w (uuid_count w + 2 * n)) (seq 0 (length vocab))
  ∧ map baseId made
    = map (λ n, Some (uuid_source w (uuid_count w + 2 * n + 1)))
          (seq 0 (length vocab))
  ∧ Forall (λ c, scheduledShort c = None ∧ scheduledEnd c = None) made
  ∧ uuid_count after = uuid_count w + 2 * length vocab
  ∧ random_count after = random_count w + 2 * length vocab.
Proof.
  intros made after. unfold made, after.
  rewrite DeckFacts.textToCards_spec. cbn [fst snd uuid_count random_count].
  split; [apply cards_from_records|].
  split; [apply PageMore.cards_from_ids|].
  split; [apply cards_from_baseIds|].
  split; [|done].
  generalize (uuid_count w). induction vocab as [|v rest IH]; intros c; [constructor|].
  cbn. constructor; [done | apply IH].
Qed.

(** ** Pages reached from the start *)

(** X16.  On every page reached from the start by events the page handles:
    the position is at most the length; the surface is mounted exactly while
    the session is not finished; a mounted surface has four canvases and a
    slot among 0, 1, 2, 3. *)
Theorem reachable_pages_consistent (vocab : list Vocab) (w : World)
    (es : list Event) (a : App) :
  run vocab es (start vocab w) = Some a →
  idx (trainer a) ≤ length (cards (trainer a))
  ∧ (surface a = None ↔ exhausted (trainer a) = true)
  ∧ match surface a with
    | Some m => Surface.slot m < 4 ∧ length (Surface.inks m) = 4
    | None => True
    end.
Proof.
  intros Hrun. destruct (reachable_consistent vocab w es a Hrun) as [Hidx Hs].
  split; [exact Hidx|]. rewrite exhausted_true.
  destruct (surface a) as [m|].
  - destruct Hs as ([c Hc] & Hslot & Hinks). split; [|done].
    rewrite Hc. split; discriminate.
  - done.
Qed.

Lemma reachable_pages_consistent_witness :
  ∃ a, run Samples.three_words [Check; Fout; ArrowLeft; Check; Correct]
           (start Samples.three_words Samples.host_a) = Some a
       ∧ idx (trainer a) ≤ length (cards (trainer a)).
Proof.
  eexists. split; [vm_compute; reflexivity|].
  eapply (reachable_pages_consistent Samples.three_words Samples.host_a
            [Check; Fout; ArrowLeft; Check; Correct] _).
  vm_compute. reflexivity.
Defined.


(** X17.  On a host whose [uuid()] never returns the same string twice, on
    every page reached from the start, restarts included, the [id]s of the
    cards in the queue are all different. *)
Theorem card_ids_unique (vocab : list Vocab) (w : World) (es : list Event) (a : App) :
  Inj (=) (=) (uuid_source w) →
  run vocab es (start vocab w) = Some a →
  NoDup (map id (cards (trainer a))).
Proof.
  intros Hinj Hrun.
  assert (Hstart : Invariants.ids_drawn (start vocab w)).
  { rewrite PageMore.start_eq. by apply PageMore.loadCards_ids. }
  assert (Hsrc : uuid_source (world (start vocab w)) = uuid_source w).
  { rewrite PageMore.start_eq. cbn. apply PageMore.loadCards_world. }
  eapply (PageMore.run_ids vocab es (start vocab w) a); [|exact Hstart|exact Hrun].
  by rewrite Hsrc.
Qed.

Lemma card_ids_unique_witness :
  Inj (=) (=) (uuid_source MoreSamples.counting_host)
  ∧ ∃ a, run Samples.three_words [Check; Fout; Check; Fout; Check; Correct]
             (start Samples.three_words MoreSamples.counting_host) = Some a
         ∧ NoDup (map id (cards (trainer a))).
Proof.
  assert (Hinj : Inj (=) (=) (uuid_source MoreSamples.counting_host)).
  { intros n m H. cbn in H. injection H as H. lia. }
  split; [exact Hinj|]. eexists. split; [vm_compute; reflexivity|].
  eapply (card_ids_unique Samples.three_words MoreSamples.counting_host
            [Check; Fout; Check; Fout; Check; Correct] _ Hinj).
  vm_compute. reflexivity.
Defined.

(** X18.  On every page reached from the start, every card of the queue,
    clones included, shows a record of the vocabulary: the clone of no card
    that [onIncorrect] could make from [undefined] is never there. *)
Theorem cards_show_vocabulary (vocab : list Vocab) (w : World)
    (es : list Event) (a : App) :
  run vocab es (start vocab w) = Some a →
  Forall (λ c, ∃ v, v ∈ vocab ∧ record_of c = Some v) (cards (trainer a)).
Proof.
  intros Hrun.
  eapply (PageMore.run_shows vocab es (start vocab w) a); [|exact Hrun].
  rewrite PageMore.start_eq. apply PageMore.loadCards_shows.
Qed.

Lemma cards_show_vocabulary_witness :
  ∃ a, run Samples.three_words [Check; Fout; Check; Correct]
           (start Samples.three_words Samples.host_a) = Some a
       ∧ Forall (λ c, ∃ v, v ∈ Samples.three_words ∧ record_of c = Some v)
                (cards (trainer a)).
Proof.
  eexists. split; [vm_compute; reflexivity|].
  eapply (cards_show_vocabulary Samples.three_words Samples.host_a
            [Check; Fout; Check; Correct] _).
  vm_compute. reflexivity.
Defined.

(** X19.  Without a restart, the queue up to and with the current card
    never changes again, and the position never goes back: after any run of
    events from a page, the first [idx + 1] cards are those of that page. *)
Theorem history_is_stable (vocab : list Vocab) (es : list Event) (a a' : App) :
  StartAgain ∉ es →
  run vocab es a = Some a' →
  take (idx (trainer a) + 1) (cards (trainer a'))
  = take (idx (trainer a) + 1) (cards (trainer a))
  ∧ idx (trainer a) ≤ idx (trainer a').
Proof.
  intros Hno Hrun. split.
  - by apply (PageMore.run_history vocab es a a').
  - destruct (run_progress vocab es a a' Hno Hrun) as [Hidx _]. lia.
Qed.

Lemma history_is_stable_witness :
  (StartAgain ∉ [Check; Fout; Check; Correct])
  ∧ ∃ a', run Samples.three_words [Check; Fout; Check; Correct]
              (start Samples.three_words Samples.host_a) = Some a'
          ∧ idx (trainer (start Samples.three_words Samples.host_a))
            ≤ idx (trainer a').
Proof.
  assert (Hno : StartAgain ∉ [Check; Fout; Check; Correct]).
  { rewrite !not_elem_of_cons. repeat split; try discriminate. apply not_elem_of_nil. }
  split; [exact Hno|]. eexists. split; [vm_compute; reflexivity|].
  eapply (history_is_stable Samples.three_words [Check; Fout; Check; Correct]
            (start Samples.three_words Samples.host_a) _ Hno).
  vm_compute. reflexivity.
Defined.

(** X20.  Only a "correct" grading finishes a session: any other event
    handled on a page with a current card leads to a page with a current
    card; an "incorrect" grading of the last card is among them. *)
Theorem only_correct_finishes (vocab : list Vocab) (e : Event) (a a' : App) :
  handle vocab e a = Some a' →
  e ≠ Correct →
  exhausted (trainer a) = false →
  exhausted (trainer a') = false.
Proof.
  intros H Hne Hnot. destruct (exhausted (trainer a')) eqn:Hfin; [|done].
  exfalso. PageMore.handled H.
  - injection H as <-. cbn in Hfin. unfold exhausted, current in *. cbn in Hfin.
    congruence.
  - done.
  - rewrite onIncorrect_eq in H. cbv zeta in H. injection H as <-.
    apply exhausted_true, current_None_ge in Hfin.
    cbn [rerender trainer cards idx] in Hfin. rewrite reinsert_length in Hfin.
    apply current_Some_lt in Hcur. lia.
  - injection H as <-. cbn in Hfin. congruence.
  - injection H as <-. cbn in Hfin. congruence.
  - injection H as <-. cbn in Hfin. congruence.
  - apply exhausted_true in Hcur. congruence.
Qed.

Lemma only_correct_finishes_witness :
  ∃ a',
    handle Samples.three_words Fout
      (mkApp (mkTrainer [Samples.a_card] 0 true 0) (Some Surface.mounted)
             Samples.host_a) = Some a'
    ∧ Fout ≠ Correct
    ∧ exhausted (mkTrainer [Samples.a_card] 0 true 0) = false
    ∧ exhausted (trainer a') = false.
Proof.
  eexists. split; [vm_compute; reflexivity|]. split; [discriminate|].
  split; [reflexivity|].
  eapply (only_correct_finishes Samples.three_words Fout
            (mkApp (mkTrainer [Samples.a_card] 0 true 0) (Some Surface.mounted)
                   Samples.host_a) _).
  - vm_compute. reflexivity.
  - discriminate.
  - reflexivity.
Defined.

(** X21.  When at most three cards follow the current one, [onIncorrect]
    puts both clones at the end, the short one right before the other: the
    queue is the old one followed by the two clones. *)
Theorem onIncorrect_near_the_end (s : Trainer) (w : World) :
  idx s < length (cards s) →
  length (cards s) ≤ idx s + 4 →
  cards (onIncorrect s s w).1
  = cards s ++ [clone_short (current s) (uuid_source w (uuid_count w));
                clone_end (current s) (uuid_source w (S (uuid_count w)))].
Proof.
  intros Hlt Hnear. rewrite onIncorrect_eq. cbn [fst cards].
  rewrite reinsert_eq. cbv zeta. rewrite Nat.min_r by lia.
  rewrite take_ge, drop_ge by lia. reflexivity.
Qed.

Lemma onIncorrect_near_the_end_witness :
  idx (mkTrainer [Samples.a_card; Samples.a_card] 1 true 0)
    < length (cards (mkTrainer [Samples.a_card; Samples.a_card] 1 true 0))
  ∧ length (cards (mkTrainer [Samples.a_card; Samples.a_card] 1 true 0))
    ≤ idx (mkTrainer [Samples.a_card; Samples.a_card] 1 true 0) + 4
  ∧ length (cards (onIncorrect (mkTrainer [Samples.a_card; Samples.a_card] 1 true 0)
                               (mkTrainer [Samples.a_card; Samples.a_card] 1 true 0)
                               Samples.host_a).1) = 4.
Proof.
  split; [cbn; lia|]. split; [cbn; lia|].
  rewrite (onIncorrect_near_the_end
             (mkTrainer [Samples.a_card; Samples.a_card] 1 true 0) Samples.host_a);
    [reflexivity | cbn; lia | cbn; lia].
Defined.

(** X22.  "Check" shows the answer and changes nothing else: queue,
    position, clear signal, oracles and the mounted surface with its ink and
    slot stay; pressing it again gives the same page. *)
Theorem check_reveals_only (vocab : list Vocab) (a a1 : App) :
  handle vocab Check a = Some a1 →
  showGhost a1 = true
  ∧ cards (trainer a1) = cards (trainer a)
  ∧ idx (trainer a1) = idx (trainer a)
  ∧ clearSignal (trainer a1) = clearSignal (trainer a)
  ∧ world a1 = world a
  ∧ surface a1 = Some (default Surface.mounted (surface a))
  ∧ handle vocab Check a1 = Some a1.
Proof.
  intros H. unfold handle in H.
  destruct (current (trainer a)) as [c|] eqn:Hcur; [|discriminate H].
  injection H as <-.
  assert (Hsurf : surface (rerender a (onCheck (trainer a)) (world a))
                  = Some (default Surface.mounted (surface a))).
  { unfold rerender, reconcile. cbn [surface].
    change (current (onCheck (trainer a))) with (current (trainer a)).
    rewrite Hcur. destruct (surface a); [|done]. by rewrite decide_True. }
  repeat (split; [done|]).
  remember (rerender a (onCheck (trainer a)) (world a)) as a1 eqn:Ha1.
  assert (Ht : trainer a1 = onCheck (trainer a)) by (by subst a1).
  clear Ha1. destruct a1 as [t1 s1 w1]. cbn [trainer surface] in *. subst t1 s1.
  unfold handle. cbn [trainer].
  change (current (onCheck (trainer a))) with (current (trainer a)).
  rewrite Hcur. f_equal. unfold rerender, reconcile. cbn [trainer surface world].
  change (current (onCheck (onCheck (trainer a)))) with (current (trainer a)).
  rewrite Hcur. by rewrite decide_True.
Qed.

Lemma check_reveals_only_witness :
  ∃ a1, handle Samples.three_words Check
          (start Samples.three_words Samples.host_a) = Some a1
        ∧ showGhost a1 = true.
Proof.
  eexists. split; [vm_compute; reflexivity|].
  eapply (check_reveals_only Samples.three_words
            (start Samples.three_words Samples.host_a) _).
  vm_compute. reflexivity.
Defined.

(** X23.  On a page reached from the start that shows a card, both arrows
    are handled, each undoes the other, four presses of the right arrow give
    the page back, and neither touches the trainer's state. *)
Theorem arrows_undo_each_other (vocab : list Vocab) (w : World)
    (es : list Event) (a : App) :
  run vocab es (start vocab w) = Some a →
  exhausted (trainer a) = false →
  ∃ l r,
    handle vocab ArrowLeft a = Some l
    ∧ handle vocab ArrowRight a = Some r
    ∧ handle vocab ArrowRight l = Some a
    ∧ handle vocab ArrowLeft r = Some a
    ∧ run vocab [ArrowRight; ArrowRight; ArrowRight; ArrowRight] a = Some a
    ∧ trainer l = trainer a ∧ trainer r = trainer a.
Proof.
  intros Hrun Hnot.
  destruct (reachable_consistent vocab w es a Hrun) as [_ Hs].
  destruct a as [t [m|] w0]; cbn [trainer surface] in *.
  2: { apply exhausted_true in Hs. congruence. }
  destruct Hs as ([c Hc] & Hslot & _). destruct m as [i k].
  cbn [Surface.slot] in Hslot.
  exists (mkApp t (Some (Surface.mkMultiCanvas (Surface.goLeft i) k)) w0),
         (mkApp t (Some (Surface.mkMultiCanvas (Surface.goRight i) k)) w0).
  assert (Hi : i = 0 ∨ i = 1 ∨ i = 2 ∨ i = 3) by lia.
  cbn [run]. unfold handle. cbn [trainer]. rewrite Hc. cbn [on_surface trainer].
  rewrite Hc. cbn [on_surface trainer]. rewrite Hc. cbn [on_surface trainer].
  rewrite Hc.
  destruct Hi as [-> | [-> | [-> | ->]]]; by repeat split.
Qed.

Lemma arrows_undo_each_other_witness :
  ∃ a, run Samples.three_words [ArrowLeft; Check]
           (start Samples.three_words Samples.host_a) = Some a
       ∧ exhausted (trainer a) = false
       ∧ run Samples.three_words [ArrowRight; ArrowRight; ArrowRight; ArrowRight] a
         = Some a.
Proof.
  eexists. split; [vm_compute; reflexivity|]. split; [vm_compute; reflexivity|].
  destruct (arrows_undo_each_other Samples.three_words Samples.host_a
              [ArrowLeft; Check] _ ltac:(vm_compute; reflexivity)
              ltac:(vm_compute; reflexivity))
    as (l & r & _ & _ & _ & _ & H4 & _).
  exact H4.
Defined.

(** X24.  "Start Again" on the finished page of a session gives the page
    of a new start on the same host: nothing of the finished session is
    left. *)
Theorem restart_is_fresh_start (vocab : list Vocab) (w : World)
    (es : list Event) (a : App) :
  run vocab es (start vocab w) = Some a →
  exhausted (trainer a) = true →
  handle vocab StartAgain a = Some (start vocab (world a)).
Proof.
  intros Hrun Hfin.
  destruct (reachable_consistent vocab w es a Hrun) as [_ Hs].
  apply exhausted_true in Hfin. unfold handle. rewrite Hfin.
  destruct (surface a) as [m|] eqn:Hm.
  { destruct Hs as ([c Hc] & _). congruence. }
  rewrite PageMore.start_eq.
  rewrite (PageMore.loadCards_any_state vocab (trainer a) first_render (world a)).
  destruct (loadCards vocab first_render (world a)) as [t' w'].
  f_equal. unfold rerender. cbn [trainer surface fst snd]. f_equal.
  rewrite Hm. unfold reconcile. by destruct (current t').
Qed.

Lemma restart_is_fresh_start_witness :
  ∃ a, run Samples.three_words (all_correct 3)
           (start Samples.three_words Samples.host_a) = Some a
       ∧ exhausted (trainer a) = true
       ∧ handle Samples.three_words StartAgain a
         = Some (start Samples.three_words (world a)).
Proof.
  eexists. split; [vm_compute; reflexivity|]. split; [vm_compute; reflexivity|].
  eapply (restart_is_fresh_start Samples.three_words Samples.host_a (all_correct 3) _).
  - vm_compute. reflexivity.
  - vm_compute. reflexivity.
Defined.


(** X25.  With an empty vocabulary the page is finished from the start:
    no card, no surface, no oracle drawn from; every run of events the page
    handles, which can only be restarts, ends on that same page. *)
Theorem empty_vocabulary_stays_finished (w : World) (es : list Event) (a : App) :
  run [] es (start [] w) = Some a →
  a = mkApp first_render None w
  ∧ exhausted (trainer a) = true
  ∧ Forall (λ e, e = StartAgain) es.
Proof.
  assert (Hstart : ∀ w0, start [] w0 = mkApp first_render None w0).
  { intros [c src rc rs]. reflexivity. }
  assert (Hstep : ∀ w0 e a', handle [] e (mkApp first_render None w0) = Some a' →
                             e = StartAgain ∧ a' = mkApp first_render None w0).
  { intros [c src rc rs] e a' H. destruct e; cbn in H; try discriminate H.
    by injection H as <-. }
  rewrite Hstart. revert a. induction es as [|e es IH]; intros a Hrun; cbn [run] in Hrun.
  - injection Hrun as <-. by repeat split.
  - destruct (handle [] e (mkApp first_render None w)) as [a1|] eqn:He;
      [|discriminate Hrun].
    destruct (Hstep w e a1 He) as [-> ->].
    destruct (IH a Hrun) as (Ha & Hfin & Hes). by repeat split; [..|constructor].
Qed.

Lemma empty_vocabulary_stays_finished_witness :
  ∃ a, run [] [StartAgain; StartAgain] (start [] Samples.host_a) = Some a
       ∧ exhausted (trainer a) = true.
Proof.
  eexists. split; [vm_compute; reflexivity|].
  eapply (empty_vocabulary_stays_finished Samples.host_a [StartAgain; StartAgain] _).
  vm_compute. reflexivity.
Defined.


End Extras.
